(** * socialmixing.py: regrouping a social mixing matrix into age ranges

    A shallow embedding of [src/socialmixing.py] and the properties of its
    label arithmetic, scaling, rebinning, loading and formatting code.

    Conventions of the embedding:
    - Python exceptions are values of [exn]; a computation that may raise
      has type [result A].
    - A Python [dict] is an association list in insertion order whose keys
      are pairwise distinct ([NoDup (keys d)]); [setitem] overwrites in
      place or appends, as a dict does.
    - Python [str] is [string]; the embedding covers ASCII text.
    - The number type of the cells (Python [float], with the [int] literal
      [0] the loops start from) is a parameter, the class [Num]: the
      structural theorems hold for any choice of its operations, and the
      algebraic laws are asked for only where a proof needs them. *)

From Stdlib Require Import List ZArith Lia Bool Ascii String Permutation Sorted QArith.
From Stdlib Require DecimalString.
Import ListNotations.
Open Scope string_scope.
Open Scope list_scope.
Open Scope Z_scope.

(** ** Python values and builtins *)

Module Py.

(** The exceptions the program can raise. *)
Inductive exn : Type :=
| ValueError
| KeyError
| UnboundLocalError
| ZeroDivisionError.

Inductive result (A : Type) : Type :=
| Ok (a : A)
| Raise (e : exn).
Arguments Ok {A} a.
Arguments Raise {A} e.

Definition bind {A B : Type} (m : result A) (k : A -> result B) : result B :=
  match m with
  | Ok a => k a
  | Raise e => Raise e
  end.

Definition is_ok {A : Type} (m : result A) : bool :=
  match m with
  | Ok _ => true
  | Raise _ => false
  end.

(** [for x in xs: s = body x s], stopping at the first exception. *)
Fixpoint for_each {A S : Type} (xs : list A) (body : A -> S -> result S) (s : S)
  : result S :=
  match xs with
  | [] => Ok s
  | x :: xs' => bind (body x s) (for_each xs' body)
  end.

(** [[f(x) for x in xs]], stopping at the first exception. *)
Fixpoint map_m {A B : Type} (f : A -> result B) (xs : list A) : result (list B) :=
  match xs with
  | [] => Ok []
  | x :: xs' => bind (f x) (fun y => bind (map_m f xs') (fun ys => Ok (y :: ys)))
  end.

(** *** dict *)

Section Dict.
Context {K V : Type}.
Variable eqb : K -> K -> bool.

Definition dict : Type := list (K * V).

Definition keys (d : dict) : list K := map fst d.
Definition values (d : dict) : list V := map snd d.

Fixpoint lookup (k : K) (d : dict) : option V :=
  match d with
  | [] => None
  | (k', v) :: d' => if eqb k k' then Some v else lookup k d'
  end.

(** [k in d] *)
Definition contains (k : K) (d : dict) : bool :=
  match lookup k d with
  | Some _ => true
  | None => false
  end.

(** [d[k]] *)
Definition getitem (k : K) (d : dict) : result V :=
  match lookup k d with
  | Some v => Ok v
  | None => Raise KeyError
  end.

(** [d[k] = v]: an existing key keeps its position, a new one goes last. *)
Fixpoint setitem (k : K) (v : V) (d : dict) : dict :=
  match d with
  | [] => [(k, v)]
  | (k', v') :: d' =>
      if eqb k k' then (k', v) :: d' else (k', v') :: setitem k v d'
  end.
End Dict.
Arguments dict : clear implicits.

(** *** str.split(sep) for a one-character separator *)

Fixpoint split (sep : ascii) (s : string) : list string :=
  match s with
  | EmptyString => [EmptyString]
  | String c s' =>
    if Ascii.eqb c sep then EmptyString :: split sep s'
    else match split sep s' with
         | [] => [String c EmptyString]
         | h :: t => String c h :: t
         end
  end.

(** [sep.join(xs)] *)
Definition join (sep : string) (xs : list string) : string := String.concat sep xs.

(** *** int(str), base 10

  CPython skips leading and trailing ASCII white space, reads an optional
  sign, then decimal digits in which single underscores may separate
  digits; anything else is a ValueError.  A literal of more than
  [int_max_str_digits] digits is a ValueError too. *)

Definition is_space (c : ascii) : bool :=
  let n := nat_of_ascii c in
  ((9 <=? n) && (n <=? 13))%nat || (n =? 32)%nat.

Definition digit_value (c : ascii) : option Z :=
  let n := nat_of_ascii c in
  if ((48 <=? n) && (n <=? 57))%nat then Some (Z.of_nat n - 48) else None.

Definition is_underscore (c : ascii) : bool := (nat_of_ascii c =? 95)%nat.

Fixpoint lstrip (s : string) : string :=
  match s with
  | EmptyString => EmptyString
  | String c s' => if is_space c then lstrip s' else s
  end.

Fixpoint all_space (s : string) : bool :=
  match s with
  | EmptyString => true
  | String c s' => is_space c && all_space s'
  end.

Definition int_max_str_digits : nat := 4300.

(** The digits after the sign.  [acc] is the value read so far, [ndigits]
  the number of digits read, [prev_us] tells that the previous character
  was an underscore.  The input ends at the end of the string or at
  trailing white space. *)
Fixpoint int_digits (s : string) (acc : Z) (ndigits : nat) (prev_us : bool)
  : option Z :=
  match s with
  | EmptyString =>
    if prev_us then None
    else if (ndigits =? 0)%nat then None
    else if (int_max_str_digits <? ndigits)%nat then None
    else Some acc
  | String c s' =>
    match digit_value c with
    | Some d => int_digits s' (acc * 10 + d) (S ndigits) false
    | None =>
        if is_underscore c then
          if prev_us then None
          else if (ndigits =? 0)%nat then None
          else int_digits s' acc ndigits true
        else if all_space s then
          if prev_us then None
          else if (ndigits =? 0)%nat then None
          else if (int_max_str_digits <? ndigits)%nat then None
          else Some acc
        else None
    end
  end.

Definition int (s : string) : result Z :=
  let body :=
  match lstrip s with
  | String "+" s' => int_digits s' 0 0%nat false
  | String "-" s' => option_map Z.opp (int_digits s' 0 0%nat false)
  | s' => int_digits s' 0 0%nat false
  end in
  match body with
  | Some n => Ok n
  | None => Raise ValueError
  end.

(** [range(lo, hi)] *)
Definition range (lo hi : Z) : list Z :=
  map (fun k => lo + Z.of_nat k) (seq 0 (Z.to_nat (hi - lo))).

(** *** sorted(xs, key=f)

  The keys are computed first, one per element from left to right; the
  sort is stable. *)

Section Sorted.
Context {A : Type}.

Fixpoint insert_by (kx : Z) (x : A) (l : list (Z * A)) : list (Z * A) :=
  match l with
  | [] => [(kx, x)]
  | (ky, y) :: l' =>
      if kx <=? ky then (kx, x) :: (ky, y) :: l'
      else (ky, y) :: insert_by kx x l'
  end.

Definition sort_keyed (l : list (Z * A)) : list (Z * A) :=
  fold_right (fun p acc => insert_by (fst p) (snd p) acc) [] l.

Definition sorted (key : A -> result Z) (xs : list A) : result (list A) :=
  bind (map_m (fun x => bind (key x) (fun k => Ok (k, x))) xs)
       (fun kxs => Ok (map snd (sort_keyed kxs))).
End Sorted.

End Py.

Import Py.

Notation "x <- m ;; k" := (bind m (fun x => k))
  (at level 61, m at next level, right associativity).
Notation "' p <- m ;; k" := (bind m (fun x => match x with p => k end))
  (at level 61, p pattern, m at next level, right associativity).

(** ** Numbers

    The cells of a matrix and the proportions of the population are Python
    floats; the accumulators start from the literal [0].  [truediv] is
    [x / y], which raises ZeroDivisionError on a zero divisor, [float] is
    [float(s)] on a string and [str] is [str(x)]. *)

Class Num (V : Type) : Type := {
  zero : V;
  add : V -> V -> V;
  mul : V -> V -> V;
  truediv : V -> V -> result V;
  float : string -> result V;
  str : V -> string
}.

(** ** The class AgeMixing *)

Module AgeMixing.

Definition POP_ESTIMATE_COLUMN : string := "CENSUS2010POP".

(** A row of [csv.DictReader]: column name to text. *)
Definition csv_row : Type := dict string string.

(** A matrix is a dict of dicts, row label then column label. *)
Definition matrix (V : Type) : Type := dict string (dict string V).

Section Methods.
Context {V : Type} `{Num V}.

Record self : Type := {
  social_mixing_matrix : matrix V;
  age_proportions : dict Z V;
  scaled_matrix : matrix V
}.

(** Given an age group like "0-5" return (0, 5). *)
Definition _age_group_to_tuple (age_group : string) : result (Z * Z) :=
  match split "-" age_group with
  | [lower; upper] =>
      l <- int lower ;;
      u <- int upper ;;
      Ok (l, u)
  | _ => Raise ValueError
  end.

(** Is group1 (i.e. "5-10") in group2 (i.e. "0-15"). *)
Definition _is_group_in_group (group1 group2 : string) : result bool :=
  '(total_min, total_max) <- _age_group_to_tuple group2 ;;
  '(my_min, my_max) <- _age_group_to_tuple group1 ;;
  Ok ((my_min >=? total_min) && (my_max <=? total_max)).

(** What proportion of the population is in this group (i.e. "0-5"). *)
Definition _proportion_in_group (age_proportions : dict Z V) (group : string)
  : result V :=
  '(lower, upper) <- _age_group_to_tuple group ;;
  for_each (range lower (upper + 1))
    (fun i ret =>
       p <- getitem Z.eqb i age_proportions ;;
       Ok (add ret p))
    zero.

(** Load the social mixing matrix into a dict of dicts, from the rows that
    [csv.DictReader] yields for Age-Mixing.csv. *)
Definition load_social_mixing_matrix (reader : list csv_row) : result (matrix V) :=
  for_each reader
    (fun row ret =>
       group_i <- getitem String.eqb "Age group" row ;;
       for_each row
         (fun '(group_j, value) ret =>
            if String.eqb group_j "Age group" then Ok ret
            else
              let ret :=
                if contains String.eqb group_i ret then ret
                else setitem String.eqb group_i [] ret in
              x <- float value ;;
              r <- getitem String.eqb group_i ret ;;
              Ok (setitem String.eqb group_i (setitem String.eqb group_j x r) ret))
         ret)
    [].

(** The first loop of [load_age_proportions]: the counts of the rows of
    both sexes by age, and [total] once a row of age 999 was read. *)
Definition read_age_rows (reader : list csv_row)
  : result (dict Z V * option V) :=
  for_each reader
    (fun row '(ret, total) =>
       sex <- getitem String.eqb "SEX" row ;;
       if String.eqb sex "0" then
         a <- getitem String.eqb "AGE" row ;;
         age <- int a ;;
         if age =? 999 then
           p <- getitem String.eqb POP_ESTIMATE_COLUMN row ;;
           t <- float p ;;
           Ok (ret, Some t)
         else
           p <- getitem String.eqb POP_ESTIMATE_COLUMN row ;;
           x <- float p ;;
           Ok (setitem Z.eqb age x ret, total)
       else Ok (ret, total))
    ([], None).

(** The second loop: [for k, v in ret.items(): ret[k] = v / total], where
    [total] is unbound when no row of age 999 was read. *)
Definition scale_by_total (ret : dict Z V) (total : option V)
  : result (dict Z V) :=
  for_each (keys ret)
    (fun k ret =>
       v <- getitem Z.eqb k ret ;;
       match total with
       | None => Raise UnboundLocalError
       | Some t =>
           q <- truediv v t ;;
           Ok (setitem Z.eqb k q ret)
       end)
    ret.

(** Load age proportion data into a map from age to what proportion of the
    population is that age, from the rows of US-Age-Sex-Distribution.csv. *)
Definition load_age_proportions (reader : list csv_row) : result (dict Z V) :=
  '(ret, total) <- read_age_rows reader ;;
  scale_by_total ret total.

(** The matrix scaled by the proportions of the population in both groups. *)
Definition get_scaled_matrix (age_proportions : dict Z V)
  (social_mixing_matrix : matrix V) : result (matrix V) :=
  for_each social_mixing_matrix
    (fun '(group_i, row) ret =>
       for_each row
         (fun '(group_j, value) ret =>
            let ret :=
              if contains String.eqb group_i ret then ret
              else setitem String.eqb group_i [] ret in
            pi <- _proportion_in_group age_proportions group_i ;;
            pj <- _proportion_in_group age_proportions group_j ;;
            r <- getitem String.eqb group_i ret ;;
            Ok (setitem String.eqb group_i
                  (setitem String.eqb group_j (mul (mul pi pj) value) r) ret))
         ret)
    [].

(** Value of a cell in the new matrix: sums up all the cells covered by the
    new groupings.  Both loops run over the keys of the scaled matrix. *)
Definition get_cell_for_new_matrix (scaled_matrix : matrix V)
  (new_group_i new_group_j : string) : result V :=
  for_each (keys scaled_matrix)
    (fun group_i ret =>
       for_each (keys scaled_matrix)
         (fun group_j ret =>
            in_i <- _is_group_in_group group_i new_group_i ;;
            if in_i then
              in_j <- _is_group_in_group group_j new_group_j ;;
              if in_j then
                r <- getitem String.eqb group_i scaled_matrix ;;
                x <- getitem String.eqb group_j r ;;
                Ok (add ret x)
              else Ok ret
            else Ok ret)
         ret)
    zero.

(** Take the new groups, and the scaled matrix, and return the new matrix. *)
Definition get_new_matrix (scaled_matrix : matrix V) (new_groups : list string)
  : result (matrix V) :=
  for_each new_groups
    (fun group_i ret =>
       for_each new_groups
         (fun group_j ret =>
            let ret :=
              if contains String.eqb group_i ret then ret
              else setitem String.eqb group_i [] ret in
            x <- get_cell_for_new_matrix scaled_matrix group_i group_j ;;
            r <- getitem String.eqb group_i ret ;;
            Ok (setitem String.eqb group_i (setitem String.eqb group_j x r) ret))
         ret)
    [].

Definition newline : string := String (ascii_of_nat 10) EmptyString.

(** The lines of [format_matrix] before they are joined: the list [ret]. *)
Definition format_lines (m : matrix V) : result (list string) :=
  groups <- sorted (fun x => '(lo, _) <- _age_group_to_tuple x ;; Ok lo) (keys m) ;;
  let toprow := fold_left (fun toprow group => toprow ++ [group]) groups ["Age group"] in
  let ret := [join "," toprow] in
  for_each groups
    (fun group_i ret =>
       row <- for_each groups
                (fun group_j row =>
                   r <- getitem String.eqb group_i m ;;
                   x <- getitem String.eqb group_j r ;;
                   Ok (row ++ [str x]))
                [group_i] ;;
       Ok (ret ++ [join "," row]))
    ret.

(** Given a matrix, format it as a string. *)
Definition format_matrix (m : matrix V) : result string :=
  ret <- format_lines m ;;
  Ok (join newline ret).

(** [__init__], from the rows of the two files. *)
Definition init (mixing_rows population_rows : list csv_row) : result self :=
  smm <- load_social_mixing_matrix mixing_rows ;;
  ap <- load_age_proportions population_rows ;;
  sm <- get_scaled_matrix ap smm ;;
  Ok {| social_mixing_matrix := smm; age_proportions := ap; scaled_matrix := sm |}.

(** [main]: the text that is printed. *)
Definition main (mixing_rows population_rows : list csv_row) : result string :=
  a <- init mixing_rows population_rows ;;
  m <- get_new_matrix (scaled_matrix a) ["0-20"; "21-64"; "65-100"] ;;
  format_matrix m.

End Methods.
End AgeMixing.

Import AgeMixing.

(** ** Vocabulary of the specification *)

Section Vocabulary.
Context {V : Type} `{Num V}.

(** [m[gi][gj]] where it exists. *)
Definition cell (m : matrix V) (gi gj : string) : option V :=
  match lookup String.eqb gi m with
  | Some r => lookup String.eqb gj r
  | None => None
  end.

Definition value (m : matrix V) (gi gj : string) : V :=
  match cell m gi gj with
  | Some x => x
  | None => zero
  end.

(** The sum of a list of numbers, from [0] and from left to right. *)
Definition sum_list (l : list V) : V := fold_left add l zero.

(** [c in s] *)
Fixpoint occurs (c : ascii) (s : string) : bool :=
  match s with
  | EmptyString => false
  | String a s' => Ascii.eqb a c || occurs c s'
  end.

(** The number of occurrences of [c] in [s]: [s.count(c)]. *)
Fixpoint count_char (c : ascii) (s : string) : nat :=
  match s with
  | EmptyString => 0%nat
  | String a s' => (if Ascii.eqb a c then 1 else 0) + count_char c s'
  end.

(** A label of the form "L-U": two texts that [int] reads, joined by the
    separator. *)
Definition two_ints (label : string) : Prop :=
  exists l u L U,
    label = (l ++ "-" ++ u)%string /\
    occurs "-" l = false /\ occurs "-" u = false /\
    int l = Ok L /\ int u = Ok U.

(** A label that [_age_group_to_tuple] accepts. *)
Definition parses (g : string) : Prop :=
  exists lo hi, _age_group_to_tuple g = Ok (lo, hi).

(** [contains(inner, outer)]: inner.min >= outer.min and
    inner.max <= outer.max. *)
Definition range_in (inner outer : string) : bool :=
  match _age_group_to_tuple inner, _age_group_to_tuple outer with
  | Ok (imin, imax), Ok (omin, omax) => (omin <=? imin) && (imax <=? omax)
  | _, _ => false
  end.

(** The pairs of original groups that a new cell covers, row by row. *)
Definition covered (m : matrix V) (new_i new_j : string) : list (string * string) :=
  filter (fun p => range_in (fst p) new_i && range_in (snd p) new_j)
         (list_prod (keys m) (keys m)).

(** The sum the specification gives for a new cell. *)
Definition rebinned_cell (m : matrix V) (new_i new_j : string) : V :=
  sum_list (map (fun p => value m (fst p) (snd p)) (covered m new_i new_j)).

(** Every pair of row labels has a cell. *)
Definition complete (m : matrix V) : Prop :=
  forall gi gj, In gi (keys m) -> In gj (keys m) -> cell m gi gj <> None.

(** A dict of dicts as Python builds it: no key twice, at either level. *)
Definition well_keyed (m : matrix V) : Prop :=
  NoDup (keys m) /\ Forall (fun r => NoDup (keys (snd r))) m.

(** Square: the column labels of every row are the row labels. *)
Definition square (m : matrix V) : Prop :=
  NoDup (keys m) /\ Forall (fun r => Permutation (keys (snd r)) (keys m)) m.

(** The sum of all the cells of a matrix, row after row. *)
Definition matrix_total (m : matrix V) : V :=
  sum_list (List.concat (map (fun r => values (snd r)) m)).

(** Addition is associative and commutative, and [0] is neutral: the laws
    of exact numbers, which rounding breaks. *)
Definition exact_sums : Prop :=
  (forall x y z : V, add x (add y z) = add (add x y) z) /\
  (forall x y : V, add x y = add y x) /\
  (forall x : V, add zero x = x).

(** The new groups tile the original ones: every original group lies in
    exactly one of them. *)
Definition tiles (m : matrix V) (new_groups : list string) : Prop :=
  forall g, In g (keys m) ->
    exists n, In n new_groups /\ range_in g n = true /\
      forall n', In n' new_groups -> range_in g n' = true -> n' = n.

(** The labels of a list in the order of their first occurrence, after
    those of [acc]: the keys of a dict filled in that order. *)
Definition add_occurrences (acc l : list string) : list string :=
  fold_left (fun acc k => if existsb (String.eqb k) acc then acc else acc ++ [k]) l acc.

Definition first_occurrences (l : list string) : list string :=
  add_occurrences [] l.

(** The two statements [if gi not in ret: ret[gi] = {}] and
    [ret[gi][gj] = x] that fill a dict of dicts. *)
Definition store (gi gj : string) (x : V) (ret : matrix V) : matrix V :=
  let ret1 :=
    if contains String.eqb gi ret then ret else setitem String.eqb gi [] ret in
  match lookup String.eqb gi ret1 with
  | Some r => setitem String.eqb gi (setitem String.eqb gj x r) ret1
  | None => ret1
  end.

(** [populationShare]: the sum of the table over the ages of the label. *)
Definition population_share (tbl : dict Z V) (label : string) : V :=
  match _age_group_to_tuple label with
  | Ok (lo, hi) =>
      sum_list
        (map (fun a => match lookup Z.eqb a tbl with Some p => p | None => zero end)
           (range lo (hi + 1)))
  | Raise _ => zero
  end.

(** The label is readable and the table has every age of its range. *)
Definition has_share (tbl : dict Z V) (label : string) : Prop :=
  exists lo hi,
    _age_group_to_tuple label = Ok (lo, hi) /\
    forall a, lo <= a <= hi -> lookup Z.eqb a tbl <> None.

Definition has_share_check (tbl : dict Z V) (label : string) : bool :=
  match _age_group_to_tuple label with
  | Ok (lo, hi) => forallb (fun a => contains Z.eqb a tbl) (range lo (hi + 1))
  | Raise _ => false
  end.

(** The column labels that occur in a matrix. *)
Definition column_labels (m : matrix V) : list string :=
  List.concat (map (fun r => keys (snd r)) m).

(** [parseRange(label).min], the key that [format_matrix] sorts by. *)
Definition lower_bound (label : string) : Z :=
  match _age_group_to_tuple label with
  | Ok (lo, _) => lo
  | Raise _ => 0
  end.

(** The rows of [raw] that have a cell, each cell mapped by [f]. *)
Definition map_cells (f : string -> string -> V -> V) (raw : matrix V) : matrix V :=
  map (fun r => (fst r, map (fun c => (fst c, f (fst r) (fst c) (snd c))) (snd r)))
      (filter (fun r => match snd r with [] => false | _ => true end) raw).

(** The label of a row of the mixing table, and its cells: the columns
    other than "Age group". *)
Definition row_label (row : csv_row) : string :=
  match lookup String.eqb "Age group" row with
  | Some g => g
  | None => EmptyString
  end.

Definition data_cells (row : csv_row) : csv_row :=
  filter (fun c => negb (String.eqb (fst c) "Age group")) row.

(** A row of the population table for both sexes: [row["SEX"] == "0"]. *)
Definition both_sexes (row : csv_row) : bool :=
  match lookup String.eqb "SEX" row with
  | Some sex => String.eqb sex "0"
  | None => false
  end.

(** What [load_age_proportions] reads in one row of the population table:
    a row of another sex, the grand total (age 999 of both sexes), or the
    count of an age of both sexes. *)
Inductive row_kind : Type :=
| Other
| Sentinel (total : V)
| Count (age : Z) (count : V).

Definition read_row (row : csv_row) : result row_kind :=
  sex <- getitem String.eqb "SEX" row ;;
  if String.eqb sex "0" then
    a <- getitem String.eqb "AGE" row ;;
    age <- int a ;;
    p <- getitem String.eqb POP_ESTIMATE_COLUMN row ;;
    x <- float p ;;
    Ok (if age =? 999 then Sentinel x else Count age x)
  else Ok Other.

(** The state of the first loop after a row of each kind. *)
Definition after_row (st : dict Z V * option V) (k : row_kind)
  : dict Z V * option V :=
  match k with
  | Other => st
  | Sentinel t => (fst st, Some t)
  | Count age x => (setitem Z.eqb age x (fst st), snd st)
  end.

(** The lines of a formatted matrix whose groups are listed as [groups]:
    the header, then one line per group. *)
Definition header_line (groups : list string) : string :=
  join "," ("Age group" :: groups).

Definition data_line (m : matrix V) (groups : list string) (gi : string) : string :=
  join "," (gi :: map (fun gj => str (value m gi gj)) groups).

Definition layout (m : matrix V) (groups : list string) : list string :=
  header_line groups :: map (data_line m groups) groups.

(** The dict of dicts with rows [rows], columns [cols] and cells [f]. *)
Definition table (f : string -> string -> V) (rows cols : list string) : matrix V :=
  map (fun gi => (gi, map (fun gj => (gj, f gi gj)) cols)) rows.

End Vocabulary.

(** The order of the keys that [sorted] leaves. *)
Definition key_le {A : Type} (p q : Z * A) : Prop := fst p <= fst q.

(** ** Exact rational numbers, to run the definitions on small tables *)

Definition Q_float (s : string) : result Q :=
  n <- int s ;; Ok (inject_Z n).

Definition Q_truediv (x y : Q) : result Q :=
  if Qeq_bool y 0 then Raise ZeroDivisionError else Ok (Qred (x / y)).

Definition Q_str (x : Q) : string :=
  let x := Qred x in
  let n := DecimalString.NilZero.string_of_int (Z.to_int (Qnum x)) in
  match Qden x with
  | xH => n
  | d => n ++ "/" ++ DecimalString.NilZero.string_of_uint (Pos.to_uint d)
  end%string.

#[export] Instance Q_Num : Num Q := {
  zero := 0%Q;
  add := Qplus;
  mul := Qmult;
  truediv := Q_truediv;
  float := Q_float;
  str := Q_str
}.

(** ** Small tables *)

(** The scaled matrix of two groups that tile the ages 0 to 20. *)
Definition two_groups : matrix Q :=
  [("0-10", [("0-10", 9 # 100); ("11-20", 42 # 100)]);
   ("11-20", [("0-10", 42 # 100); ("11-20", 49 # 100)])]%Q.

(** A scaled matrix in which one group lies inside the other. *)
Definition nested_groups : matrix Q :=
  [("0-5", [("0-5", 1); ("0-10", 2)]);
   ("0-10", [("0-5", 3); ("0-10", 4)])]%Q.

(** The proportions of the ages 0 to 3. *)
Definition four_ages : dict Z Q :=
  [(0, (1 # 10)%Q); (1, (2 # 10)%Q); (2, (3 # 10)%Q); (3, (4 # 10)%Q)].

(** A raw mixing matrix over the groups "0-1" and "2-3". *)
Definition raw_two_groups : matrix Q :=
  [("0-1", [("0-1", 1); ("2-3", 2)]);
   ("2-3", [("0-1", 2); ("2-3", 1)])]%Q.

(** The matrix of one group of the formatting scenario. *)
Definition one_group : matrix Q := [("5-10", [("5-10", (42 # 1000)%Q)])].

(** A population table: two ages of both sexes, a row of one sex, and the
    grand total. *)
Definition census_rows : list csv_row :=
  [[("SEX", "0"); ("AGE", "0"); ("CENSUS2010POP", "30")];
   [("SEX", "1"); ("AGE", "0"); ("CENSUS2010POP", "14")];
   [("SEX", "0"); ("AGE", "1"); ("CENSUS2010POP", "70")];
   [("SEX", "0"); ("AGE", "999"); ("CENSUS2010POP", "100")]].

(** A population table without a row of both sexes. *)
Definition one_sex_rows : list csv_row :=
  [[("SEX", "1"); ("AGE", "0"); ("CENSUS2010POP", "14")];
   [("SEX", "2"); ("AGE", "0"); ("CENSUS2010POP", "16")]].

(** A mixing table of two groups as [csv.DictReader] yields it. *)
Definition mixing_rows_two : list csv_row :=
  [[("Age group", "0-1"); ("0-1", "1"); ("2-3", "2")];
   [("Age group", "2-3"); ("0-1", "2"); ("2-3", "1")]].

(** A population table of the ages 0 to 3, with rows of one sex and the
    grand total first. *)
Definition census_four_ages : list csv_row :=
  [[("SEX", "0"); ("AGE", "999"); ("CENSUS2010POP", "100")];
   [("SEX", "0"); ("AGE", "0"); ("CENSUS2010POP", "10")];
   [("SEX", "1"); ("AGE", "0"); ("CENSUS2010POP", "6")];
   [("SEX", "0"); ("AGE", "1"); ("CENSUS2010POP", "20")];
   [("SEX", "0"); ("AGE", "2"); ("CENSUS2010POP", "30")];
   [("SEX", "2"); ("AGE", "2"); ("CENSUS2010POP", "old")];
   [("SEX", "0"); ("AGE", "3"); ("CENSUS2010POP", "40")]].

(** The new groups of [main]. *)
Definition main_groups : list string := ["0-20"; "21-64"; "65-100"].

(** * Properties *)

(** ** The builtins on small inputs *)

Example split_two_parts : split "-" "0-5" = ["0"; "5"].
Proof. reflexivity. Qed.

Example split_without_separator : split "-" "abc" = ["abc"].
Proof. reflexivity. Qed.

Example split_leading_separator : split "-" "-5-10" = [""; "5"; "10"].
Proof. reflexivity. Qed.

Example int_of_digits : int "10" = Ok 10.
Proof. reflexivity. Qed.

Example int_of_padded_text : int " +1_0 " = Ok 10.
Proof. reflexivity. Qed.

Example int_of_negative : int "-7" = Ok (-7).
Proof. reflexivity. Qed.

Example int_rejects_double_underscore : int "1__0" = Raise ValueError.
Proof. reflexivity. Qed.

Example int_rejects_inner_space : int "1 0" = Raise ValueError.
Proof. reflexivity. Qed.

Example int_rejects_empty : int "" = Raise ValueError.
Proof. reflexivity. Qed.

Example range_of_three : range 3 6 = [3; 4; 5].
Proof. reflexivity. Qed.

Example sorted_is_stable :
  sorted (fun x => Ok (fst x)) [(2, "a"); (1, "b"); (2, "c"); (1, "d")]
  = Ok [(1, "b"); (1, "d"); (2, "a"); (2, "c")].
Proof. reflexivity. Qed.

(** The scenario of the specification: the two groups rebinned into one. *)
Example rebin_two_groups_into_one :
  get_new_matrix two_groups ["0-20"] = Ok [("0-20", [("0-20", 1.42000000%Q)])].
Proof. reflexivity. Qed.

(** ** The result monad and loops *)

Lemma bind_ok_inv {A B : Type} (m : result A) (k : A -> result B) (b : B) :
  bind m k = Ok b -> exists a, m = Ok a /\ k a = Ok b.
Proof.
  destruct m as [a|e]; simpl; intros E; [exists a; auto | discriminate].
Qed.

(** A loop whose body never raises is a left fold. *)
Lemma for_each_pure {A S : Type} (xs : list A) (body : A -> S -> result S)
  (f : S -> A -> S) :
  (forall x s, In x xs -> body x s = Ok (f s x)) ->
  forall s, for_each xs body s = Ok (fold_left f xs s).
Proof.
  induction xs as [|x xs IH]; intros Hb s; simpl; [reflexivity|].
  rewrite Hb by (left; reflexivity). simpl.
  apply IH. intros y t Hy. apply Hb. right; exact Hy.
Qed.


Lemma map_m_pure {A B : Type} (f : A -> result B) (g : A -> B) (xs : list A) :
  (forall x, In x xs -> f x = Ok (g x)) -> map_m f xs = Ok (map g xs).
Proof.
  induction xs as [|x xs IH]; intros Hf; simpl; [reflexivity|].
  rewrite Hf by (left; reflexivity). simpl.
  rewrite IH by (intros y Hy; apply Hf; right; exact Hy). reflexivity.
Qed.

(** ** dict *)

Section DictFacts.
Context {K V : Type}.
Variable eqb : K -> K -> bool.
Hypothesis eqb_eq : forall x y, eqb x y = true <-> x = y.

Lemma eqb_refl' (k : K) : eqb k k = true.
Proof. apply eqb_eq; reflexivity. Qed.

Lemma eqb_neq' (k k' : K) : k <> k' -> eqb k k' = false.
Proof.
  intros N. destruct (eqb k k') eqn:E; [|reflexivity].
  apply eqb_eq in E. contradiction.
Qed.

Lemma lookup_some_in (k : K) (v : V) (d : dict K V) :
  lookup eqb k d = Some v -> In (k, v) d.
Proof.
  induction d as [|[k' v'] d IH]; simpl; [discriminate|].
  destruct (eqb k k') eqn:E.
  - apply eqb_eq in E. intros [= ->]. subst. left; reflexivity.
  - intros L. right; auto.
Qed.

Lemma lookup_none_iff (k : K) (d : dict K V) :
  lookup eqb k d = None <-> ~ In k (keys d).
Proof.
  induction d as [|[k' v'] d IH]; simpl; [tauto|].
  destruct (eqb k k') eqn:E.
  - apply eqb_eq in E. subst. split; [discriminate | intros N; exfalso; auto].
  - rewrite IH. split.
    + intros N [E'|I]; [subst; rewrite eqb_refl' in E; discriminate | auto].
    + tauto.
Qed.

Lemma lookup_in_keys (k : K) (d : dict K V) :
  In k (keys d) -> exists v, lookup eqb k d = Some v.
Proof.
  intros I. destruct (lookup eqb k d) as [v|] eqn:E; [eauto|].
  apply lookup_none_iff in E. contradiction.
Qed.

Lemma lookup_nodup (k : K) (v : V) (d : dict K V) :
  NoDup (keys d) -> In (k, v) d -> lookup eqb k d = Some v.
Proof.
  induction d as [|[k' v'] d IH]; simpl; [tauto|].
  intros ND [E|I].
  - injection E as -> ->. rewrite eqb_refl'. reflexivity.
  - inversion ND as [|? ? N ND']; subst.
    rewrite eqb_neq'; [auto|].
    intros ->. apply N. apply (in_map fst) in I. exact I.
Qed.

Lemma contains_iff (k : K) (d : dict K V) :
  contains eqb k d = true <-> In k (keys d).
Proof.
  unfold contains. split.
  - destruct (lookup eqb k d) eqn:E; [|discriminate].
    intros _. apply lookup_some_in in E. apply (in_map fst) in E. exact E.
  - intros I. apply lookup_in_keys in I as [v ->]. reflexivity.
Qed.

Lemma lookup_setitem_same (k : K) (v : V) (d : dict K V) :
  lookup eqb k (setitem eqb k v d) = Some v.
Proof.
  induction d as [|[k' v'] d IH]; simpl.
  - rewrite eqb_refl'. reflexivity.
  - destruct (eqb k k') eqn:E; simpl; rewrite E; auto.
Qed.

Lemma lookup_setitem_other (k k' : K) (v : V) (d : dict K V) :
  k <> k' -> lookup eqb k' (setitem eqb k v d) = lookup eqb k' d.
Proof.
  intros N. induction d as [|[k0 v0] d IH]; simpl.
  - rewrite eqb_neq' by auto. reflexivity.
  - destruct (eqb k k0) eqn:E; simpl.
    + apply eqb_eq in E. subst k0.
      rewrite (eqb_neq' k' k) by auto. reflexivity.
    + rewrite IH. reflexivity.
Qed.

Lemma setitem_new (k : K) (v : V) (d : dict K V) :
  ~ In k (keys d) -> setitem eqb k v d = d ++ [(k, v)].
Proof.
  induction d as [|[k' v'] d IH]; simpl; intros N; [reflexivity|].
  rewrite eqb_neq' by (intros ->; auto). rewrite IH by auto. reflexivity.
Qed.

Lemma setitem_same_value (k : K) (v : V) (d : dict K V) :
  lookup eqb k d = Some v -> setitem eqb k v d = d.
Proof.
  induction d as [|[k' v'] d IH]; simpl; [discriminate|].
  destruct (eqb k k') eqn:E.
  - intros [= ->]. reflexivity.
  - intros L. rewrite IH by exact L. reflexivity.
Qed.

Lemma keys_setitem_old (k : K) (v : V) (d : dict K V) :
  In k (keys d) -> keys (setitem eqb k v d) = keys d.
Proof.
  induction d as [|[k' v'] d IH]; simpl; [tauto|].
  destruct (eqb k k') eqn:E; simpl; [reflexivity|].
  intros [E'|I]; [subst; rewrite eqb_refl' in E; discriminate|].
  f_equal. apply IH. exact I.
Qed.

End DictFacts.

(** ** Labels *)

Lemma split_not_nil (sep : ascii) (s : string) : split sep s <> [].
Proof.
  destruct s as [|c s]; simpl; [discriminate|].
  destruct (Ascii.eqb c sep); [discriminate|].
  destruct (split sep s); discriminate.
Qed.

(** Joining the parts with the separator gives the text back. *)
Lemma join_split (sep : ascii) (s : string) :
  join (String sep EmptyString) (split sep s) = s.
Proof.
  unfold join. induction s as [|c s IH]; simpl; [reflexivity|].
  destruct (Ascii.eqb c sep) eqn:E.
  - apply Ascii.eqb_eq in E. subst c.
    pose proof (split_not_nil sep s) as N.
    destruct (split sep s) as [|h t]; [contradiction|].
    simpl in *. rewrite IH. reflexivity.
  - pose proof (split_not_nil sep s) as N.
    destruct (split sep s) as [|h t]; [contradiction|].
    simpl in *. destruct t; simpl in *; rewrite <- IH; reflexivity.
Qed.

Lemma split_no_sep (sep : ascii) (s : string) :
  occurs sep s = false -> split sep s = [s].
Proof.
  induction s as [|c s IH]; simpl; [reflexivity|].
  intros O. apply orb_false_iff in O as [E O].
  rewrite E, IH by exact O. reflexivity.
Qed.

Lemma split_app_sep (sep : ascii) (l u : string) :
  occurs sep l = false ->
  split sep (l ++ String sep u)%string = l :: split sep u.
Proof.
  induction l as [|c l IH]; simpl.
  - intros _. rewrite Ascii.eqb_refl. reflexivity.
  - intros O. apply orb_false_iff in O as [E O].
    rewrite E, IH by exact O. reflexivity.
Qed.


Lemma split_parts_no_sep (sep : ascii) (s p : string) :
  In p (split sep s) -> occurs sep p = false.
Proof.
  revert p. induction s as [|c s IH]; simpl; intros p.
  - intros [<-|[]]. reflexivity.
  - destruct (Ascii.eqb c sep) eqn:E.
    + intros [<-|I]; [reflexivity | auto].
    + pose proof (split_not_nil sep s) as N.
      destruct (split sep s) as [|h t]; [contradiction|].
      intros [<-|I]; simpl.
      * rewrite E. apply IH. left; reflexivity.
      * apply IH. right; exact I.
Qed.

(** Two texts without the separator, joined by it, are read back. *)
Lemma tuple_of_joined (l u : string) (L U : Z) :
  occurs "-" l = false -> occurs "-" u = false ->
  int l = Ok L -> int u = Ok U ->
  _age_group_to_tuple (l ++ "-" ++ u)%string = Ok (L, U).
Proof.
  intros Ol Ou Il Iu. unfold _age_group_to_tuple.
  change (l ++ "-" ++ u)%string with (l ++ String "-" u)%string.
  rewrite split_app_sep by exact Ol.
  rewrite split_no_sep by exact Ou.
  rewrite Il, Iu. reflexivity.
Qed.

(** What [_age_group_to_tuple] accepts is of the form "L-U". *)
Lemma tuple_ok_two_ints (label : string) (L U : Z) :
  _age_group_to_tuple label = Ok (L, U) -> two_ints label.
Proof.
  unfold _age_group_to_tuple. intros E.
  pose proof (join_split "-" label) as J.
  pose proof (split_parts_no_sep "-" label) as P.
  destruct (split "-" label) as [|l [|u [|x t]]]; try discriminate.
  apply bind_ok_inv in E as (L' & Il & E).
  apply bind_ok_inv in E as (U' & Iu & E).
  exists l, u, L', U'. split; [symmetry; exact J|].
  split; [apply P; simpl; auto|].
  split; [apply P; simpl; auto|].
  split; assumption.
Qed.

(** The only exception of [_age_group_to_tuple] is ValueError. *)
Lemma tuple_raises_value_error (label : string) (e : exn) :
  _age_group_to_tuple label = Raise e -> e = ValueError.
Proof.
  unfold _age_group_to_tuple.
  assert (I : forall s e', int s = Raise e' -> e' = ValueError).
  { intros s e'. unfold int.
    destruct (match lstrip s with
              | String "+" s' => int_digits s' 0 0%nat false
              | String "-" s' => option_map Z.opp (int_digits s' 0 0%nat false)
              | s' => int_digits s' 0 0%nat false
              end); [discriminate | intros [= <-]; reflexivity]. }
  destruct (split "-" label) as [|l [|u [|x t]]]; try (intros [= <-]; reflexivity).
  destruct (int l) eqn:Il; simpl.
  - destruct (int u) eqn:Iu; simpl; [discriminate|].
    intros [= <-]. eapply I; eauto.
  - intros [= <-]. eapply I; eauto.
Qed.

(** C5 (as the code has it).  [_age_group_to_tuple] raises ValueError, and
    nothing else, exactly for the labels that are not two texts read by
    [int] and joined by one separator, "abc" among them; the order of the
    two bounds plays no part. *)
Theorem age_group_to_tuple_rejects (label : string) :
  (_age_group_to_tuple label = Raise ValueError <-> ~ two_ints label) /\
  (forall e, _age_group_to_tuple label = Raise e -> e = ValueError) /\
  _age_group_to_tuple "abc" = Raise ValueError.
Proof.
  split; [|split; [apply tuple_raises_value_error | reflexivity]].
  split.
  - intros E (l & u & L & U & -> & Ol & Ou & Il & Iu).
    rewrite (tuple_of_joined l u L U) in E by assumption. discriminate.
  - intros N. destruct (_age_group_to_tuple label) as [[L U]|e] eqn:E.
    + exfalso. apply N. eapply tuple_ok_two_ints; eauto.
    + apply tuple_raises_value_error in E. subst e. reflexivity.
Qed.

(** C5, the counterexample: the label "10-5", whose lower bound exceeds
    its upper bound, is not rejected. *)
Lemma age_group_to_tuple_accepts_inverted :
  (10 > 5) /\ _age_group_to_tuple "10-5" = Ok (10, 5) /\
  ~ (exists e, _age_group_to_tuple "10-5" = Raise e).
Proof.
  split; [lia|]. split; [reflexivity|].
  intros [e E]. discriminate E.
Qed.

(** ** Population share *)

Lemma fold_left_mapped {A B S : Type} (f : S -> B -> S) (g : A -> B)
  (l : list A) (s : S) :
  fold_left f (map g l) s = fold_left (fun s x => f s (g x)) l s.
Proof.
  revert s; induction l as [|x l IH]; intros s; simpl; auto.
Qed.

Section Proportion.
Context {V : Type} `{Num V}.

Lemma range_in_bounds (lo hi a : Z) : In a (range lo hi) <-> lo <= a < hi.
Proof.
  unfold range. rewrite in_map_iff. split.
  - intros (k & <- & I). apply in_seq in I. lia.
  - intros B. exists (Z.to_nat (a - lo)). split; [lia|].
    apply in_seq. lia.
Qed.

Lemma range_empty (lo hi : Z) : hi <= lo -> range lo hi = [].
Proof.
  intros L. unfold range.
  replace (Z.to_nat (hi - lo)) with 0%nat by lia. reflexivity.
Qed.

(** The loop of [_proportion_in_group] stops with KeyError at the first
    age that the table lacks. *)
Lemma proportion_loop_missing (tbl : dict Z V) (ages : list Z) (a : Z) :
  In a ages -> lookup Z.eqb a tbl = None ->
  forall ret,
    for_each ages
      (fun i ret => p <- getitem Z.eqb i tbl ;; Ok (add ret p)) ret
    = Raise KeyError.
Proof.
  intros I L. induction ages as [|x ages IH]; intros ret; [destruct I|].
  simpl. unfold getitem at 1.
  destruct (lookup Z.eqb x tbl) as [v|] eqn:E; simpl.
  - destruct I as [->|I]; [congruence|]. apply IH; exact I.
  - reflexivity.
Qed.

(** C6.  For a label read as (L, U) with L <= U, [_proportion_in_group] is
    the sum of the table's entries for the ages L, L+1, ..., U when the
    table has them all, and raises KeyError (a LookupError) when it lacks
    one of them. *)
Theorem proportion_in_group_sum_or_key_error
  (tbl : dict Z V) (label : string) (L U : Z) (p : Z -> V) :
  _age_group_to_tuple label = Ok (L, U) ->
  L <= U ->
  ((forall a, L <= a <= U -> lookup Z.eqb a tbl = Some (p a)) ->
   _proportion_in_group tbl label = Ok (sum_list (map p (range L (U + 1))))) /\
  ((exists a, L <= a <= U /\ lookup Z.eqb a tbl = None) ->
   _proportion_in_group tbl label = Raise KeyError).
Proof.
  intros E LU. unfold _proportion_in_group. rewrite E. simpl. split.
  - intros A. unfold sum_list. rewrite fold_left_mapped.
    apply for_each_pure. intros a ret I.
    apply range_in_bounds in I. unfold getitem.
    rewrite A by lia. reflexivity.
  - intros (a & B & N). apply proportion_loop_missing with (a := a); auto.
    apply range_in_bounds. lia.
Qed.

End Proportion.

(** ** Lists *)

Lemma fold_left_list_prod {A B S : Type} (f : S -> A * B -> S)
  (xs : list A) (ys : list B) (s : S) :
  fold_left f (list_prod xs ys) s =
  fold_left (fun s a => fold_left (fun s b => f s (a, b)) ys s) xs s.
Proof.
  revert s; induction xs as [|x xs IH]; intros s; simpl; [reflexivity|].
  rewrite fold_left_app, fold_left_mapped. apply IH.
Qed.

Lemma fold_left_filter {A S : Type} (f : S -> A -> S) (P : A -> bool)
  (l : list A) (s : S) :
  fold_left f (filter P l) s = fold_left (fun s x => if P x then f s x else s) l s.
Proof.
  revert s; induction l as [|x l IH]; intros s; simpl; [reflexivity|].
  destruct (P x); simpl; apply IH.
Qed.


Lemma filter_map_pair {A B : Type} (P : A * B -> bool) (a : A) (ys : list B) :
  filter P (map (fun y => (a, y)) ys) =
  map (fun y => (a, y)) (filter (fun y => P (a, y)) ys).
Proof.
  induction ys as [|y ys IH]; simpl; [reflexivity|].
  destruct (P (a, y)); simpl; rewrite IH; reflexivity.
Qed.

Lemma filter_false {A : Type} (l : list A) : filter (fun _ => false) l = [].
Proof. induction l; simpl; auto. Qed.

Lemma filter_list_prod {A B : Type} (P : A -> bool) (Q : B -> bool)
  (xs : list A) (ys : list B) :
  filter (fun p => P (fst p) && Q (snd p)) (list_prod xs ys) =
  list_prod (filter P xs) (filter Q ys).
Proof.
  induction xs as [|x xs IH]; simpl; [reflexivity|].
  rewrite filter_app, filter_map_pair, IH. simpl.
  destruct (P x); simpl; [reflexivity|].
  rewrite filter_false. reflexivity.
Qed.

Lemma filter_unique {A : Type} (P : A -> bool) (l : list A) (a : A) :
  NoDup l -> In a l -> (forall x, In x l -> (P x = true <-> x = a)) ->
  filter P l = [a].
Proof.
  induction l as [|x l IH]; intros ND I U; [destruct I|].
  inversion ND as [|? ? N ND']; subst. simpl.
  destruct (P x) eqn:E.
  - assert (x = a) by (apply U; [left; reflexivity | exact E]). subst x.
    f_equal. rewrite <- (filter_false l). apply filter_ext_in.
    intros y Iy. destruct (P y) eqn:Ey; [|reflexivity].
    assert (y = a) by (apply U; [right; exact Iy | exact Ey]).
    subst y. contradiction.
  - destruct I as [->|I].
    + assert (P a = true) by (apply U; [left|]; reflexivity). congruence.
    + apply IH; auto. intros y Iy. apply U. right; exact Iy.
Qed.

(** ** Filling a dict of dicts *)

Section Store.
Context {V : Type} `{Num V}.

Lemma setitem_twice (k : string) (x y : dict string V) (d : matrix V) :
  setitem String.eqb k x (setitem String.eqb k y d) = setitem String.eqb k x d.
Proof.
  induction d as [|[k' v'] d IH]; simpl.
  - rewrite String.eqb_refl. reflexivity.
  - destruct (String.eqb k k') eqn:E; simpl; rewrite E; [reflexivity|].
    rewrite IH. reflexivity.
Qed.

Lemma setitem_last (k : string) (x y : dict string V) (d : matrix V) :
  ~ In k (keys d) ->
  setitem String.eqb k x (d ++ [(k, y)]) = d ++ [(k, x)].
Proof.
  induction d as [|[k' v'] d IH]; simpl; intros N.
  - rewrite String.eqb_refl. reflexivity.
  - destruct (String.eqb k k') eqn:E.
    + apply String.eqb_eq in E. subst. exfalso; auto.
    + rewrite IH by auto. reflexivity.
Qed.

(** Storing into a row that exists rewrites that row. *)
Lemma store_old (gi gj : string) (x : V) (ret : matrix V) (r : dict string V) :
  lookup String.eqb gi ret = Some r ->
  store gi gj x ret = setitem String.eqb gi (setitem String.eqb gj x r) ret.
Proof.
  intros L. unfold store, contains. rewrite L, L. reflexivity.
Qed.

(** Storing into a row that does not exist appends it. *)
Lemma store_new (gi gj : string) (x : V) (ret : matrix V) :
  ~ In gi (keys ret) ->
  store gi gj x ret = ret ++ [(gi, [(gj, x)])].
Proof.
  intros N. unfold store, contains.
  rewrite (proj2 (lookup_none_iff String.eqb String.eqb_eq gi ret) N).
  rewrite lookup_setitem_same by apply String.eqb_eq.
  rewrite setitem_twice. apply (setitem_new String.eqb String.eqb_eq). exact N.
Qed.

(** The inner loop, on a row that exists: [xs] are the items the loop runs
    over, [kf] their column label and [vf] the value stored. *)
Lemma store_row_old {X : Type} (kf : X -> string) (vf : X -> V) (gi : string)
  (xs : list X) :
  forall (ret : matrix V) (r : dict string V),
    lookup String.eqb gi ret = Some r ->
    fold_left (fun ret x => store gi (kf x) (vf x) ret) xs ret =
    setitem String.eqb gi
      (fold_left (fun r x => setitem String.eqb (kf x) (vf x) r) xs r) ret.
Proof.
  induction xs as [|x xs IH]; intros ret r L; simpl.
  - symmetry. apply (setitem_same_value String.eqb). exact L.
  - rewrite (store_old gi (kf x) (vf x) ret r L).
    rewrite (IH _ (setitem String.eqb (kf x) (vf x) r))
      by (apply lookup_setitem_same; apply String.eqb_eq).
    apply setitem_twice.
Qed.

Lemma lookup_last (k : string) (y : dict string V) (d : matrix V) :
  ~ In k (keys d) -> lookup String.eqb k (d ++ [(k, y)]) = Some y.
Proof.
  induction d as [|[k' v'] d IH]; simpl; intros N.
  - rewrite String.eqb_refl. reflexivity.
  - destruct (String.eqb k k') eqn:E.
    + apply String.eqb_eq in E. subst. exfalso; auto.
    + apply IH. auto.
Qed.

(** The inner loop, on a row that does not exist. *)
Lemma store_row_new {X : Type} (kf : X -> string) (vf : X -> V) (gi : string)
  (xs : list X) (ret : matrix V) :
  xs <> [] -> ~ In gi (keys ret) ->
  fold_left (fun ret x => store gi (kf x) (vf x) ret) xs ret =
  ret ++ [(gi, fold_left (fun r x => setitem String.eqb (kf x) (vf x) r) xs [])].
Proof.
  destruct xs as [|x xs]; [congruence|]. intros _ N. simpl.
  rewrite store_new by exact N.
  rewrite (store_row_old kf vf gi xs _ [(kf x, vf x)])
    by (apply lookup_last; exact N).
  apply setitem_last. exact N.
Qed.

Lemma existsb_eqb_in (k : string) (l : list string) :
  existsb (String.eqb k) l = true <-> In k l.
Proof.
  rewrite existsb_exists. split.
  - intros (x & I & E). apply String.eqb_eq in E. subst. exact I.
  - intros I. exists k. split; [exact I | apply String.eqb_refl].
Qed.

Lemma in_add_occurrences (k : string) (l acc : list string) :
  In k (add_occurrences acc l) <-> In k acc \/ In k l.
Proof.
  unfold add_occurrences. revert acc.
  induction l as [|x l IH]; intros acc; simpl; [tauto|].
  rewrite IH. destruct (existsb (String.eqb x) acc) eqn:E.
  - apply existsb_eqb_in in E. split; [tauto|].
    intros [I|[->|I]]; auto.
  - rewrite in_app_iff. simpl. tauto.
Qed.

Lemma in_first_occurrences (k : string) (l : list string) :
  In k (first_occurrences l) <-> In k l.
Proof.
  unfold first_occurrences. rewrite in_add_occurrences. simpl. tauto.
Qed.

Lemma add_occurrences_known (acc l : list string) :
  (forall k, In k l -> In k acc) -> add_occurrences acc l = acc.
Proof.
  unfold add_occurrences. induction l as [|x l IH]; intros A; simpl; [reflexivity|].
  rewrite (proj2 (existsb_eqb_in x acc)) by (apply A; left; reflexivity).
  apply IH. intros k I. apply A. right; exact I.
Qed.

Lemma nodup_add_occurrences (acc l : list string) :
  NoDup acc -> NoDup (add_occurrences acc l).
Proof.
  unfold add_occurrences. revert acc.
  induction l as [|x l IH]; intros acc ND; simpl; [exact ND|].
  apply IH. destruct (existsb (String.eqb x) acc) eqn:E; [exact ND|].
  apply NoDup_app; [exact ND | repeat constructor; simpl; tauto |].
  intros y Iy [<-|[]].
  apply existsb_eqb_in in Iy. congruence.
Qed.

Lemma first_occurrences_nodup (l : list string) :
  NoDup l -> first_occurrences l = l.
Proof.
  unfold first_occurrences, add_occurrences.
  assert (G : forall acc, NoDup (acc ++ l) ->
    fold_left (fun acc k => if existsb (String.eqb k) acc then acc else acc ++ [k]) l acc
    = acc ++ l).
  { induction l as [|x l IH]; intros acc ND; simpl.
    - rewrite app_nil_r. reflexivity.
    - assert (N : ~ In x acc).
      { intros I. apply NoDup_remove_2 in ND. apply ND.
        apply in_or_app. left; exact I. }
      destruct (existsb (String.eqb x) acc) eqn:E.
      + apply existsb_eqb_in in E. contradiction.
      + rewrite IH; rewrite <- app_assoc; simpl; auto. }
  intros ND. apply (G []). exact ND.
Qed.

Lemma lookup_graph {A : Type} (g : string -> A) (k : string) (l : list string) :
  In k l -> lookup String.eqb k (map (fun x => (x, g x)) l) = Some (g k).
Proof.
  induction l as [|x l IH]; simpl; [tauto|].
  destruct (String.eqb k x) eqn:E.
  - apply String.eqb_eq in E. subst. reflexivity.
  - intros [->|I]; [rewrite String.eqb_refl in E; discriminate | auto].
Qed.

Lemma lookup_graph_none {A : Type} (g : string -> A) (k : string) (l : list string) :
  ~ In k l -> lookup String.eqb k (map (fun x => (x, g x)) l) = None.
Proof.
  intros N. apply (lookup_none_iff String.eqb String.eqb_eq).
  unfold keys. rewrite map_map. simpl. rewrite map_id. exact N.
Qed.

(** A row filled column by column. *)
Lemma fill_row (f : string -> V) (cols : list string) :
  forall acc,
    fold_left (fun r gj => setitem String.eqb gj (f gj) r) cols
      (map (fun gj => (gj, f gj)) acc) =
    map (fun gj => (gj, f gj)) (add_occurrences acc cols).
Proof.
  unfold add_occurrences.
  induction cols as [|gj cols IH]; intros acc; simpl; [reflexivity|].
  destruct (existsb (String.eqb gj) acc) eqn:E.
  - rewrite (setitem_same_value String.eqb); [apply IH|].
    apply existsb_eqb_in in E. apply lookup_graph. exact E.
  - rewrite (setitem_new String.eqb String.eqb_eq).
    + rewrite <- IH. rewrite map_app. reflexivity.
    + unfold keys. rewrite map_map. simpl. rewrite map_id.
      intros I. apply existsb_eqb_in in I. congruence.
Qed.

End Store.

Section Rebinning.
Context {V : Type} `{Num V}.

Lemma keys_table (f : string -> string -> V) (rows cols : list string) :
  keys (table f rows cols) = rows.
Proof.
  unfold keys, table. rewrite map_map. simpl. apply map_id.
Qed.

(** The two nested loops that fill a dict of dicts leave the table of the
    labels in the order of their first occurrence. *)
Lemma fill_table (f : string -> string -> V) (rows cols : list string) :
  cols <> [] ->
  forall acc,
    fold_left
      (fun ret gi => fold_left (fun ret gj => store gi gj (f gi gj) ret) cols ret)
      rows (table f acc (first_occurrences cols)) =
    table f (add_occurrences acc rows) (first_occurrences cols).
Proof.
  intros NE. unfold add_occurrences.
  induction rows as [|gi rows IH]; intros acc; simpl; [reflexivity|].
  destruct (existsb (String.eqb gi) acc) eqn:E.
  - apply existsb_eqb_in in E.
    rewrite (store_row_old (fun gj => gj) (f gi) gi cols _
               (map (fun gj => (gj, f gi gj)) (first_occurrences cols))).
    + rewrite fill_row, add_occurrences_known
        by (intros k I; apply in_first_occurrences; exact I).
      rewrite (setitem_same_value String.eqb); [apply IH|].
      unfold table.
      apply (lookup_graph
               (fun gi => map (fun gj => (gj, f gi gj)) (first_occurrences cols))).
      exact E.
    + unfold table.
      apply (lookup_graph
               (fun gi => map (fun gj => (gj, f gi gj)) (first_occurrences cols))).
      exact E.
  - rewrite (store_row_new (fun gj => gj) (f gi)).
    + rewrite <- IH. f_equal. unfold table. rewrite map_app. simpl.
      do 3 f_equal. apply (fill_row (f gi) cols []).
    + exact NE.
    + rewrite keys_table. intros I. apply existsb_eqb_in in I. congruence.
Qed.

(** The body shared by the loops that fill a dict of dicts. *)
Lemma store_body (gi gj : string) (x : V) (ret : matrix V) :
  (let ret1 :=
     if contains String.eqb gi ret then ret else setitem String.eqb gi [] ret in
   r <- getitem String.eqb gi ret1 ;;
   Ok (setitem String.eqb gi (setitem String.eqb gj x r) ret1))
  = Ok (store gi gj x ret).
Proof.
  unfold store, getitem, contains. cbv zeta.
  destruct (lookup String.eqb gi ret) as [r|] eqn:L.
  - rewrite L. reflexivity.
  - rewrite lookup_setitem_same by apply String.eqb_eq. reflexivity.
Qed.

Lemma is_group_in_group_ok (g1 g2 : string) :
  parses g1 -> parses g2 -> _is_group_in_group g1 g2 = Ok (range_in g1 g2).
Proof.
  intros (a & b & E1) (c & d & E2).
  unfold _is_group_in_group, range_in. rewrite E1, E2. simpl.
  rewrite Z.geb_leb. reflexivity.
Qed.

Lemma complete_value (m : matrix V) (gi gj : string) :
  complete m -> In gi (keys m) -> In gj (keys m) ->
  exists r, lookup String.eqb gi m = Some r /\
            lookup String.eqb gj r = Some (value m gi gj).
Proof.
  intros C Ii Ij. specialize (C gi gj Ii Ij).
  unfold value, cell in *.
  destruct (lookup String.eqb gi m) as [r|]; [|congruence].
  exists r. split; [reflexivity|].
  destruct (lookup String.eqb gj r); congruence.
Qed.

(** [get_cell_for_new_matrix] returns the sum of the covered cells. *)
Lemma get_cell_sum (sm : matrix V) (new_i new_j : string) :
  Forall parses (keys sm) -> complete sm -> parses new_i -> parses new_j ->
  get_cell_for_new_matrix sm new_i new_j = Ok (rebinned_cell sm new_i new_j).
Proof.
  intros P C Pi Pj. rewrite Forall_forall in P.
  unfold get_cell_for_new_matrix, rebinned_cell, covered, sum_list.
  rewrite fold_left_mapped, fold_left_filter, fold_left_list_prod.
  apply for_each_pure. intros gi s Ii.
  apply for_each_pure. intros gj t Ij. simpl.
  rewrite is_group_in_group_ok by auto. simpl.
  destruct (range_in gi new_i); simpl; [|reflexivity].
  rewrite is_group_in_group_ok by auto. simpl.
  destruct (range_in gj new_j); simpl; [|reflexivity].
  destruct (complete_value sm gi gj C Ii Ij) as (r & L1 & L2).
  unfold getitem. rewrite L1. simpl. rewrite L2. reflexivity.
Qed.

(** [get_new_matrix] returns the table of those sums over the new labels. *)
Lemma get_new_matrix_table (sm : matrix V) (new_groups : list string) :
  Forall parses (keys sm) -> complete sm -> Forall parses new_groups ->
  get_new_matrix sm new_groups =
  Ok (table (rebinned_cell sm)
        (first_occurrences new_groups) (first_occurrences new_groups)).
Proof.
  intros P C PN. rewrite Forall_forall in PN.
  unfold get_new_matrix.
  rewrite (for_each_pure new_groups _
    (fun ret gi =>
       fold_left (fun ret gj => store gi gj (rebinned_cell sm gi gj) ret)
         new_groups ret)).
  - f_equal. destruct new_groups as [|n ns] eqn:E; [reflexivity|].
    rewrite <- E.
    assert (NE : new_groups <> []) by congruence.
    exact (fill_table (rebinned_cell sm) new_groups new_groups NE []).
  - intros gi ret Ii. apply for_each_pure. intros gj t Ij.
    cbv zeta. rewrite get_cell_sum by auto. simpl.
    apply store_body.
Qed.

Lemma cell_table (f : string -> string -> V) (rows cols : list string)
  (gi gj : string) :
  In gi rows -> In gj cols -> cell (table f rows cols) gi gj = Some (f gi gj).
Proof.
  intros Ii Ij. unfold cell, table.
  rewrite (lookup_graph (fun gi => map (fun gj => (gj, f gi gj)) cols)) by exact Ii.
  apply (lookup_graph (f gi)). exact Ij.
Qed.

Lemma cell_table_in (f : string -> string -> V) (rows cols : list string)
  (gi gj : string) :
  cell (table f rows cols) gi gj <> None -> In gi rows /\ In gj cols.
Proof.
  unfold cell, table. intros N.
  destruct (in_dec string_dec gi rows) as [Ii|Ni].
  - rewrite (lookup_graph (fun gi => map (fun gj => (gj, f gi gj)) cols)) in N
      by exact Ii.
    split; [exact Ii|].
    destruct (in_dec string_dec gj cols) as [Ij|Nj]; [exact Ij|].
    rewrite (lookup_graph_none (f gi)) in N by exact Nj. congruence.
  - rewrite (lookup_graph_none
               (fun gi => map (fun gj => (gj, f gi gj)) cols)) in N by exact Ni.
    congruence.
Qed.

End Rebinning.

(** ** Rebinning *)

Ltac parses_all :=
  repeat constructor; do 2 eexists; reflexivity.

Ltac complete_by_cases :=
  let Ii := fresh in
  let Ij := fresh in
  intros ? ? Ii Ij; simpl in Ii, Ij;
  intuition (subst; vm_compute; discriminate).

Lemma NoDup_list_prod {A B : Type} (xs : list A) (ys : list B) :
  NoDup xs -> NoDup ys -> NoDup (list_prod xs ys).
Proof.
  intros Nx Ny. induction Nx as [|x xs N Nx IH]; simpl; [constructor|].
  apply NoDup_app.
  - clear - Ny. induction Ny as [|y ys N Ny IH]; simpl; constructor; auto.
    rewrite in_map_iff. intros (y' & [= ->] & I). contradiction.
  - exact IH.
  - intros [a b]. rewrite in_map_iff, in_prod_iff.
    intros (y & [= <- <-] & _) [I _]. contradiction.
Qed.

Section RebinningClaims.
Context {V : Type} `{Num V}.

Lemma in_covered (sm : matrix V) (new_i new_j g g' : string) :
  In (g, g') (covered sm new_i new_j) <->
  In g (keys sm) /\ In g' (keys sm) /\
  range_in g new_i = true /\ range_in g' new_j = true.
Proof.
  unfold covered. rewrite filter_In, in_prod_iff, andb_true_iff. simpl. tauto.
Qed.

Lemma range_in_refl (g : string) : parses g -> range_in g g = true.
Proof.
  intros (lo & hi & E). unfold range_in. rewrite E.
  rewrite !Z.leb_refl. reflexivity.
Qed.

(** C1.  On a scaled matrix with readable labels and a cell for every pair
    of them, and for readable new labels, [get_cell_for_new_matrix] returns
    the sum of the cells [sm[g_i][g_j]] over the pairs of original groups
    with g_i inside the new row group and g_j inside the new column group,
    and [get_new_matrix] holds exactly this sum at every pair of new
    labels, and no other cell. *)
Theorem rebinned_cells_are_sums (sm : matrix V) (new_groups : list string) :
  Forall parses (keys sm) -> complete sm -> Forall parses new_groups ->
  (forall ni nj, In ni new_groups -> In nj new_groups ->
     get_cell_for_new_matrix sm ni nj =
     Ok (sum_list (map (fun p => value sm (fst p) (snd p))
                     (filter (fun p => range_in (fst p) ni && range_in (snd p) nj)
                        (list_prod (keys sm) (keys sm)))))) /\
  exists nm,
    get_new_matrix sm new_groups = Ok nm /\
    (forall ni nj, In ni new_groups -> In nj new_groups ->
       cell nm ni nj = Some (rebinned_cell sm ni nj)) /\
    (forall ni nj, cell nm ni nj <> None ->
       In ni new_groups /\ In nj new_groups).
Proof.
  intros P C PN. split.
  - intros ni nj Ii Ij. rewrite Forall_forall in PN.
    apply get_cell_sum; auto.
  - eexists. split; [apply get_new_matrix_table; assumption|]. split.
    + intros ni nj Ii Ij. apply cell_table; apply in_first_occurrences; assumption.
    + intros ni nj N. apply cell_table_in in N.
      rewrite !in_first_occurrences in N. exact N.
Qed.

(** C9.  With readable labels, rebinning returns whatever the new groups
    cover: every new cell is the sum of its covered pairs, each taken
    once; an original group inside no new group is in no covered pair; an
    original group inside two new groups is in the covered pairs of
    both. *)
Theorem rebin_accepts_gaps_and_overlaps (sm : matrix V) (new_groups : list string) :
  NoDup (keys sm) -> Forall parses (keys sm) -> complete sm ->
  Forall parses new_groups ->
  exists nm,
    get_new_matrix sm new_groups = Ok nm /\
    (forall ni nj, In ni new_groups -> In nj new_groups ->
       cell nm ni nj =
       Some (sum_list (map (fun p => value sm (fst p) (snd p)) (covered sm ni nj)))
       /\ NoDup (covered sm ni nj)) /\
    (forall g, (forall n, In n new_groups -> range_in g n = false) ->
       forall ni nj g', In ni new_groups -> In nj new_groups ->
         ~ In (g, g') (covered sm ni nj) /\ ~ In (g', g) (covered sm ni nj)) /\
    (forall g g' n1 n2 nj,
       In g (keys sm) -> In g' (keys sm) ->
       range_in g n1 = true -> range_in g n2 = true -> range_in g' nj = true ->
       In (g, g') (covered sm n1 nj) /\ In (g, g') (covered sm n2 nj) /\
       In (g', g) (covered sm nj n1) /\ In (g', g) (covered sm nj n2)).
Proof.
  intros ND P C PN.
  eexists. split; [apply get_new_matrix_table; assumption|]. split; [|split].
  - intros ni nj Ii Ij. split.
    + apply (cell_table (rebinned_cell sm)); apply in_first_occurrences; assumption.
    + apply NoDup_filter. apply NoDup_list_prod; exact ND.
  - intros g G ni nj g' Ii Ij. rewrite !in_covered.
    split; intros (_ & _ & R1 & R2).
    + rewrite G in R1 by exact Ii. discriminate.
    + rewrite G in R2 by exact Ij. discriminate.
  - intros g g' n1 n2 nj Ig Ig' R1 R2 R'. rewrite !in_covered. tauto.
Qed.

(** C3 (as the code has it).  When no original group lies inside another
    one, and adding to [0] changes nothing, rebinning a scaled matrix with
    its own labels gives back each of its cells. *)
Theorem rebin_with_own_labels (sm : matrix V) :
  NoDup (keys sm) -> Forall parses (keys sm) -> complete sm ->
  (forall x : V, add zero x = x) ->
  (forall g g', In g (keys sm) -> In g' (keys sm) ->
     range_in g g' = true -> g = g') ->
  exists nm,
    get_new_matrix sm (keys sm) = Ok nm /\
    keys nm = keys sm /\
    forall gi gj, In gi (keys sm) -> In gj (keys sm) ->
      cell nm gi gj = cell sm gi gj.
Proof.
  intros ND P C Z0 NN.
  eexists. split; [apply get_new_matrix_table; assumption|].
  rewrite first_occurrences_nodup by exact ND.
  split; [apply keys_table|].
  intros gi gj Ii Ij. rewrite cell_table by assumption.
  assert (F : forall g, In g (keys sm) ->
            filter (fun x => range_in x g) (keys sm) = [g]).
  { intros g Ig. apply filter_unique; auto.
    intros x Ix. split; [intros R; apply NN; auto|].
    intros ->. apply range_in_refl.
    rewrite Forall_forall in P. auto. }
  unfold rebinned_cell, covered.
  rewrite (filter_list_prod (fun x => range_in x gi) (fun x => range_in x gj)).
  rewrite !F by assumption. simpl. unfold sum_list. simpl. rewrite Z0.
  destruct (complete_value sm gi gj C Ii Ij) as (r & L1 & L2).
  unfold cell. rewrite L1. symmetry. exact L2.
Qed.

End RebinningClaims.

Lemma rebinned_cells_are_sums_witness :
  get_cell_for_new_matrix two_groups "0-20" "0-20" = Ok (142000000 # 100000000)%Q /\
  exists nm,
    get_new_matrix two_groups ["0-20"] = Ok nm /\
    cell nm "0-20" "0-20" = Some (142000000 # 100000000)%Q.
Proof.
  destruct (rebinned_cells_are_sums two_groups ["0-20"]) as (G & nm & E & C & _).
  - parses_all.
  - complete_by_cases.
  - parses_all.
  - split.
    + rewrite G by (simpl; auto). reflexivity.
    + exists nm. split; [exact E|].
      rewrite C by (simpl; auto). reflexivity.
Defined.

(** New groups that leave the ages 11 to 20 out and cover 0 to 10 twice. *)
Lemma rebin_accepts_gaps_and_overlaps_witness :
  exists nm,
    get_new_matrix two_groups ["0-10"; "0-12"] = Ok nm /\
    cell nm "0-10" "0-12" = Some (9 # 100)%Q /\
    cell nm "0-12" "0-12" = Some (9 # 100)%Q.
Proof.
  destruct (rebin_accepts_gaps_and_overlaps two_groups ["0-10"; "0-12"])
    as (nm & E & C & _).
  - repeat constructor; simpl; intuition discriminate.
  - parses_all.
  - complete_by_cases.
  - parses_all.
  - exists nm. split; [exact E|]. split.
    + destruct (C "0-10" "0-12") as [-> _]; simpl; auto.
    + destruct (C "0-12" "0-12") as [-> _]; simpl; auto.
Defined.

Lemma rebin_with_own_labels_witness :
  exists nm,
    get_new_matrix two_groups (keys two_groups) = Ok nm /\
    cell nm "0-10" "11-20" = Some (42 # 100)%Q.
Proof.
  destruct (rebin_with_own_labels two_groups) as (nm & E & _ & C).
  - repeat constructor; simpl; intuition discriminate.
  - parses_all.
  - complete_by_cases.
  - intros [n d]. unfold add, zero; simpl. unfold Qplus; simpl.
    f_equal. lia.
  - intros g g' I I'. simpl in I, I'.
    repeat destruct I as [<-|I]; try destruct I;
      repeat destruct I' as [<-|I']; try destruct I';
      vm_compute; congruence.
  - exists nm. split; [exact E|].
    rewrite C by (simpl; auto). reflexivity.
Defined.

(** C3, the counterexample: the group "0-5" lies inside "0-10", and the
    cell of "0-10" with itself collects all four cells. *)
Lemma rebin_with_own_labels_nested :
  exists nm,
    get_new_matrix nested_groups (keys nested_groups) = Ok nm /\
    cell nested_groups "0-10" "0-10" = Some 4%Q /\
    cell nm "0-10" "0-10" = Some 10%Q /\
    cell nm "0-10" "0-10" <> cell nested_groups "0-10" "0-10".
Proof.
  eexists. split; [vm_compute; reflexivity|].
  split; [reflexivity|]. split; [reflexivity|].
  vm_compute. discriminate.
Qed.

(** ** Scaling *)

Section Scaling.
Context {V : Type} `{Num V}.

Lemma proportion_is_share (tbl : dict Z V) (label : string) :
  has_share tbl label ->
  _proportion_in_group tbl label = Ok (population_share tbl label).
Proof.
  intros (lo & hi & E & A).
  unfold _proportion_in_group, population_share. rewrite E. simpl.
  unfold sum_list. rewrite fold_left_mapped.
  apply for_each_pure. intros a ret I.
  apply range_in_bounds in I. unfold getitem.
  specialize (A a ltac:(lia)).
  destruct (lookup Z.eqb a tbl); [reflexivity | congruence].
Qed.

(** A row without repeated labels, filled item by item. *)
Lemma fill_row_items (vf : string * V -> V) (row : dict string V) :
  NoDup (keys row) ->
  forall acc : dict string V,
    (forall k, In k (keys row) -> ~ In k (keys acc)) ->
    fold_left (fun r c => setitem String.eqb (fst c) (vf c) r) row acc =
    acc ++ map (fun c => (fst c, vf c)) row.
Proof.
  induction row as [|[gj v] row IH]; intros ND acc D; simpl.
  - rewrite app_nil_r. reflexivity.
  - inversion ND as [|? ? N ND']; subst.
    rewrite (setitem_new String.eqb String.eqb_eq)
      by (apply D; left; reflexivity).
    rewrite IH; [rewrite <- app_assoc; reflexivity | exact ND' |].
    intros k I. unfold keys. rewrite map_app, in_app_iff. simpl.
    intros [I'|[<-|[]]]; [|contradiction].
    apply (D k); [right; exact I | exact I'].
Qed.

(** The two loops of [get_scaled_matrix], without the exceptions. *)
Lemma fill_rows (f : string -> string -> V -> V) (raw : matrix V) :
  well_keyed raw ->
  forall acc : matrix V,
    (forall k, In k (keys raw) -> ~ In k (keys acc)) ->
    fold_left
      (fun ret r =>
         fold_left (fun ret c => store (fst r) (fst c) (f (fst r) (fst c) (snd c)) ret)
           (snd r) ret)
      raw acc =
    acc ++ map_cells f raw.
Proof.
  unfold well_keyed, map_cells.
  induction raw as [|[gi row] raw IH]; intros [ND RD] acc D; simpl.
  - rewrite app_nil_r. reflexivity.
  - inversion ND as [|? ? N ND']; subst.
    inversion RD as [|? ? NR RD']; subst. simpl in NR.
    destruct row as [|c row].
    + simpl. apply IH; [split; assumption|].
      intros k I. apply D. right; exact I.
    + rewrite (store_row_new fst (fun c => f gi (fst c) (snd c)) gi (c :: row))
        by (try congruence; apply D; left; reflexivity).
      rewrite IH; [| split; assumption |].
      * rewrite <- app_assoc. simpl. do 3 f_equal.
        apply (fill_row_items (fun c => f gi (fst c) (snd c)) (c :: row) NR []).
        intros k _ [].
      * intros k I. unfold keys. rewrite map_app, in_app_iff. simpl.
        intros [I'|[<-|[]]]; [|contradiction].
        apply (D k); [right; exact I | exact I'].
Qed.

Lemma lookup_map_values {A B : Type} (h : string -> A -> B) (k : string)
  (d : dict string A) :
  lookup String.eqb k (map (fun c => (fst c, h (fst c) (snd c))) d) =
  option_map (h k) (lookup String.eqb k d).
Proof.
  induction d as [|[k' v] d IH]; simpl; [reflexivity|].
  destruct (String.eqb k k') eqn:E; [|exact IH].
  apply String.eqb_eq in E. subst. reflexivity.
Qed.

Lemma lookup_filter {A : Type} (P : string * A -> bool) (k : string)
  (d : dict string A) :
  NoDup (keys d) ->
  lookup String.eqb k (filter P d) =
  match lookup String.eqb k d with
  | Some v => if P (k, v) then Some v else None
  | None => None
  end.
Proof.
  induction d as [|[k' v] d IH]; intros ND; simpl; [reflexivity|].
  inversion ND as [|? ? N ND']; subst.
  destruct (String.eqb k k') eqn:E.
  - apply String.eqb_eq in E. subst k'.
    destruct (P (k, v)); simpl.
    + rewrite String.eqb_refl. reflexivity.
    + rewrite IH by exact ND'.
      rewrite (proj2 (lookup_none_iff String.eqb String.eqb_eq k d) N).
      reflexivity.
  - destruct (P (k', v)); simpl; [rewrite E|]; apply IH; exact ND'.
Qed.

Lemma cell_map_cells (f : string -> string -> V -> V) (raw : matrix V)
  (gi gj : string) :
  NoDup (keys raw) ->
  cell (map_cells f raw) gi gj = option_map (f gi gj) (cell raw gi gj).
Proof.
  intros ND. unfold cell, map_cells.
  rewrite (lookup_map_values (A := dict string V)
             (fun gi row => map (fun c => (fst c, f gi (fst c) (snd c))) row)).
  rewrite (lookup_filter (A := dict string V)) by exact ND.
  destruct (lookup String.eqb gi raw) as [row|]; [|reflexivity].
  destruct row as [|c row]; [reflexivity|].
  exact (lookup_map_values (f gi) gj (c :: row)).
Qed.

Lemma in_cell (raw : matrix V) (gi gj : string) (row : dict string V) (v : V) :
  well_keyed raw -> In (gi, row) raw -> In (gj, v) row ->
  cell raw gi gj = Some v.
Proof.
  intros [ND RD] Ir Ic. unfold cell.
  rewrite (lookup_nodup String.eqb String.eqb_eq gi row raw ND Ir).
  rewrite Forall_forall in RD.
  apply (lookup_nodup String.eqb String.eqb_eq); [|exact Ic].
  apply (RD (gi, row) Ir).
Qed.

(** [get_scaled_matrix] maps every cell and keeps the rows that have one. *)
Lemma get_scaled_matrix_cells (tbl : dict Z V) (raw : matrix V) :
  well_keyed raw ->
  (forall gi gj v, cell raw gi gj = Some v ->
     has_share tbl gi /\ has_share tbl gj) ->
  get_scaled_matrix tbl raw =
  Ok (map_cells
        (fun gi gj v =>
           mul (mul (population_share tbl gi) (population_share tbl gj)) v)
        raw).
Proof.
  intros W S. unfold get_scaled_matrix.
  rewrite (for_each_pure raw _
    (fun ret r =>
       fold_left
         (fun ret c =>
            store (fst r) (fst c)
              (mul (mul (population_share tbl (fst r))
                        (population_share tbl (fst c))) (snd c)) ret)
         (snd r) ret)).
  - f_equal.
    apply (fill_rows
             (fun gi gj v =>
                mul (mul (population_share tbl gi) (population_share tbl gj)) v)
             raw W []).
    intros k _ [].
  - intros [gi row] ret Ir. apply for_each_pure. intros [gj v] t Ic.
    destruct (S gi gj v (in_cell raw gi gj row v W Ir Ic)) as [Si Sj].
    cbv zeta. rewrite !proportion_is_share by assumption. simpl.
    apply store_body.
Qed.

(** C2.  For a raw matrix whose labels are readable and whose ages the
    table has, the scaled matrix has at every cell (row, column) of value v
    the product of the population share of the row, that of the column,
    and v, where the share is the sum of the table over the label's range;
    it has a cell exactly where the raw matrix has one. *)
Theorem scaled_cells_are_weighted (tbl : dict Z V) (raw : matrix V) :
  well_keyed raw ->
  (forall gi gj v, cell raw gi gj = Some v ->
     has_share tbl gi /\ has_share tbl gj) ->
  exists sm,
    get_scaled_matrix tbl raw = Ok sm /\
    (forall gi gj v, cell raw gi gj = Some v ->
       _proportion_in_group tbl gi = Ok (population_share tbl gi) /\
       _proportion_in_group tbl gj = Ok (population_share tbl gj) /\
       cell sm gi gj =
       Some (mul (mul (population_share tbl gi) (population_share tbl gj)) v)) /\
    (forall gi gj, cell raw gi gj = None -> cell sm gi gj = None).
Proof.
  intros W S.
  eexists. split; [apply get_scaled_matrix_cells; assumption|].
  destruct W as [ND RD]. split.
  - intros gi gj v C. destruct (S gi gj v C) as [Si Sj].
    split; [apply proportion_is_share; exact Si|].
    split; [apply proportion_is_share; exact Sj|].
    rewrite cell_map_cells by exact ND. rewrite C. reflexivity.
  - intros gi gj C. rewrite cell_map_cells by exact ND. rewrite C. reflexivity.
Qed.

End Scaling.

Section ScalingChecks.
Context {V : Type} `{Num V}.

Lemma has_share_check_ok (tbl : dict Z V) (label : string) :
  has_share_check tbl label = true -> has_share tbl label.
Proof.
  unfold has_share_check, has_share.
  destruct (_age_group_to_tuple label) as [[lo hi]|e]; [|discriminate].
  intros F. exists lo, hi. split; [reflexivity|].
  rewrite forallb_forall in F. intros a B.
  specialize (F a (proj2 (range_in_bounds lo (hi + 1) a) ltac:(lia))).
  unfold contains in F. destruct (lookup Z.eqb a tbl); congruence.
Qed.

Lemma cell_labels (m : matrix V) (gi gj : string) (v : V) :
  cell m gi gj = Some v -> In gi (keys m) /\ In gj (column_labels m).
Proof.
  unfold cell, column_labels. intros C.
  destruct (lookup String.eqb gi m) as [r|] eqn:L; [|discriminate].
  apply (lookup_some_in String.eqb String.eqb_eq) in L.
  apply (lookup_some_in String.eqb String.eqb_eq) in C.
  split.
  - apply (in_map fst) in L. exact L.
  - apply in_concat. exists (keys r). split.
    + apply in_map_iff. exists (gi, r). split; [reflexivity | exact L].
    + apply (in_map fst) in C. exact C.
Qed.

(** The labels of a matrix all have a share when the check passes on each. *)
Lemma shares_by_check (tbl : dict Z V) (m : matrix V) :
  forallb (has_share_check tbl) (keys m ++ column_labels m) = true ->
  forall gi gj v, cell m gi gj = Some v -> has_share tbl gi /\ has_share tbl gj.
Proof.
  intros F gi gj v C. rewrite forallb_forall in F.
  apply cell_labels in C as [Ii Ij].
  split; apply has_share_check_ok, F, in_or_app; auto.
Qed.

End ScalingChecks.

Lemma scaled_cells_are_weighted_witness :
  exists sm x,
    get_scaled_matrix four_ages raw_two_groups = Ok sm /\
    cell sm "0-1" "2-3" = Some x /\ (x == (3 # 10) * (7 # 10) * 2)%Q.
Proof.
  destruct (scaled_cells_are_weighted four_ages raw_two_groups)
    as (sm & E & C & _).
  - split; repeat constructor; simpl; intuition discriminate.
  - apply shares_by_check. reflexivity.
  - destruct (C "0-1" "2-3" 2%Q eq_refl) as (_ & _ & Cx).
    eexists sm, _. split; [exact E|]. split; [exact Cx|].
    vm_compute. reflexivity.
Defined.

Lemma proportion_in_group_sum_or_key_error_witness :
  (exists x, _proportion_in_group four_ages "1-3" = Ok x /\ (x == 9 # 10)%Q) /\
  _proportion_in_group four_ages "2-5" = Raise KeyError.
Proof.
  split.
  - destruct (proportion_in_group_sum_or_key_error four_ages "1-3" 1 3
                (fun a => match lookup Z.eqb a four_ages with
                          | Some x => x
                          | None => 0%Q
                          end) eq_refl ltac:(lia)) as [S _].
    eexists. split.
    + apply S. intros a B.
      assert (C : a = 1 \/ a = 2 \/ a = 3) by lia.
      destruct C as [->|[->| ->]]; reflexivity.
    + vm_compute. reflexivity.
  - destruct (proportion_in_group_sum_or_key_error four_ages "2-5" 2 5
                (fun _ => 0%Q) eq_refl ltac:(lia)) as [_ K].
    apply K. exists 4. split; [lia | reflexivity].
Defined.

(** ** Labels whose bounds are inverted *)

Section Inverted.
Context {V : Type} `{Num V}.

(** C10.  A label "L-U" of two readable non-negative bounds with L > U is
    read as (L, U); its population share is [0] whatever the table, since
    the range of ages is empty; it passes through the containment test,
    the scaling and the rebinning without an exception. *)
Theorem inverted_label_flows (l u : string) (L U : Z) :
  occurs "-" l = false -> occurs "-" u = false ->
  int l = Ok L -> int u = Ok U -> L > U ->
  let label := (l ++ "-" ++ u)%string in
  _age_group_to_tuple label = Ok (L, U) /\
  (forall tbl : dict Z V, _proportion_in_group tbl label = Ok zero) /\
  (forall other, parses other ->
     _is_group_in_group label other = Ok (range_in label other) /\
     _is_group_in_group other label = Ok (range_in other label)) /\
  (forall (tbl : dict Z V) (v : V),
     get_scaled_matrix tbl [(label, [(label, v)])] =
     Ok [(label, [(label, mul (mul zero zero) v)])]) /\
  (forall v : V,
     get_new_matrix [(label, [(label, v)])] [label] =
     Ok [(label, [(label, add zero v)])]).
Proof.
  intros Ol Ou Il Iu LU label.
  assert (E : _age_group_to_tuple label = Ok (L, U))
    by (apply tuple_of_joined; assumption).
  assert (P : parses label) by (exists L, U; exact E).
  assert (Z0 : forall tbl : dict Z V, _proportion_in_group tbl label = Ok zero).
  { intros tbl. unfold _proportion_in_group. rewrite E. simpl.
    rewrite range_empty by lia. reflexivity. }
  split; [exact E|]. split; [exact Z0|]. split; [|split].
  - intros other Po. split; apply is_group_in_group_ok; assumption.
  - intros tbl v. unfold get_scaled_matrix. simpl.
    rewrite Z0. simpl. unfold getitem. simpl.
    rewrite !String.eqb_refl. reflexivity.
  - intros v. unfold get_new_matrix, get_cell_for_new_matrix. simpl.
    rewrite is_group_in_group_ok by assumption.
    rewrite range_in_refl by assumption. simpl.
    unfold getitem. simpl. rewrite !String.eqb_refl. simpl.
    rewrite !String.eqb_refl. reflexivity.
Qed.

End Inverted.

Lemma inverted_label_flows_witness :
  _age_group_to_tuple "10-5" = Ok (10, 5) /\
  _proportion_in_group (V := Q) [] "10-5" = Ok 0%Q /\
  get_scaled_matrix four_ages [("10-5", [("10-5", 2%Q)])] =
  Ok [("10-5", [("10-5", (0 * 0 * 2)%Q)])].
Proof.
  destruct (inverted_label_flows (V := Q) "10" "5" 10 5
              eq_refl eq_refl eq_refl eq_refl ltac:(lia))
    as (E & P & _ & S & _).
  split; [exact E|]. split; [apply P | apply S].
Defined.

(** ** sorted *)

Section SortedFacts.
Context {A : Type}.

Lemma insert_by_perm (k : Z) (x : A) (l : list (Z * A)) :
  Permutation (insert_by k x l) ((k, x) :: l).
Proof.
  induction l as [|[ky y] l IH]; simpl; [reflexivity|].
  destruct (k <=? ky); [reflexivity|].
  rewrite IH. apply perm_swap.
Qed.

Lemma insert_by_sorted (k : Z) (x : A) (l : list (Z * A)) :
  Sorted key_le l -> Sorted key_le (insert_by k x l).
Proof.
  induction l as [|[ky y] l IH]; simpl; intros S.
  - repeat constructor.
  - destruct (k <=? ky) eqn:E.
    + constructor; [exact S|]. constructor. unfold key_le; simpl. lia.
    + inversion S as [|? ? S' Hd]; subst.
      constructor; [apply IH; exact S'|].
      destruct l as [|[kz z] l]; simpl.
      * constructor. unfold key_le; simpl. lia.
      * destruct (k <=? kz); constructor.
        -- unfold key_le; simpl. lia.
        -- inversion Hd; subst. assumption.
Qed.

(** An insertion leaves the elements of every key in their order. *)
Lemma insert_by_stable (k k0 : Z) (x : A) (l : list (Z * A)) :
  filter (fun p => fst p =? k0) (insert_by k x l) =
  filter (fun p => fst p =? k0) ((k, x) :: l).
Proof.
  induction l as [|[ky y] l IH]; [reflexivity|].
  simpl insert_by. destruct (k <=? ky) eqn:E; [reflexivity|].
  simpl in *. rewrite IH.
  destruct (k =? k0) eqn:Ek; [|reflexivity].
  destruct (ky =? k0) eqn:Ey; [lia | reflexivity].
Qed.

Lemma sort_keyed_perm (l : list (Z * A)) : Permutation (sort_keyed l) l.
Proof.
  induction l as [|[k x] l IH]; simpl; [reflexivity|].
  rewrite insert_by_perm. constructor. exact IH.
Qed.

Lemma sort_keyed_sorted (l : list (Z * A)) : Sorted key_le (sort_keyed l).
Proof.
  induction l as [|[k x] l IH]; simpl; [constructor|].
  apply insert_by_sorted. exact IH.
Qed.

Lemma sort_keyed_stable (k0 : Z) (l : list (Z * A)) :
  filter (fun p => fst p =? k0) (sort_keyed l) = filter (fun p => fst p =? k0) l.
Proof.
  induction l as [|[k x] l IH]; simpl; [reflexivity|].
  rewrite insert_by_stable. simpl. rewrite IH. reflexivity.
Qed.

(** [sorted] on a key that never raises: a permutation in the order of the
    keys, the elements of equal key in their original order. *)
Lemma sorted_spec (key : A -> result Z) (f : A -> Z) (xs : list A) :
  (forall x, In x xs -> key x = Ok (f x)) ->
  exists ys,
    sorted key xs = Ok ys /\
    Permutation ys xs /\
    Sorted (fun a b => f a <= f b) ys /\
    forall k, filter (fun x => f x =? k) ys = filter (fun x => f x =? k) xs.
Proof.
  intros K. unfold sorted.
  rewrite (map_m_pure _ (fun x => (f x, x))).
  2:{ intros x I. rewrite K by exact I. reflexivity. }
  simpl. eexists. split; [reflexivity|].
  set (kxs := map (fun x => (f x, x)) xs).
  assert (G : forall p, In p (sort_keyed kxs) -> fst p = f (snd p)).
  { intros p I. apply (Permutation_in _ (sort_keyed_perm kxs)) in I.
    unfold kxs in I. apply in_map_iff in I as (x & <- & _). reflexivity. }
  assert (M : map snd kxs = xs).
  { unfold kxs. rewrite map_map. simpl. apply map_id. }
  split; [|split].
  - apply Permutation_trans with (map snd kxs).
    + apply Permutation_map. apply sort_keyed_perm.
    + rewrite M. reflexivity.
  - pose proof (sort_keyed_sorted kxs) as S.
    induction S as [|p l S IH Hd]; simpl; constructor.
    + apply IH. intros q I. apply G. right; exact I.
    + destruct Hd as [|q l' R]; simpl; constructor.
      unfold key_le in R.
      rewrite <- (G p), <- (G q); simpl; auto.
  - intros k.
    assert (F : forall l : list (Z * A),
              (forall p, In p l -> fst p = f (snd p)) ->
              filter (fun x => f x =? k) (map snd l) =
              map snd (filter (fun p => fst p =? k) l)).
    { induction l as [|p l IH]; intros Gl; simpl; [reflexivity|].
      rewrite <- (Gl p) by (left; reflexivity).
      destruct (fst p =? k); simpl; rewrite IH; auto;
        intros q I; apply Gl; right; exact I. }
    rewrite F by exact G. rewrite sort_keyed_stable.
    rewrite <- F; [rewrite M; reflexivity|].
    intros p I. unfold kxs in I.
    apply in_map_iff in I as (x & <- & _). reflexivity.
Qed.

End SortedFacts.

(** ** Formatting *)

Lemma fold_left_snoc {A B : Type} (g : A -> B) (l : list A) (init : list B) :
  fold_left (fun acc x => acc ++ [g x]) l init = init ++ map g l.
Proof.
  revert init; induction l as [|x l IH]; intros init; simpl.
  - rewrite app_nil_r. reflexivity.
  - rewrite IH, <- app_assoc. reflexivity.
Qed.

Section Formatting.
Context {V : Type} `{Num V}.

Lemma sort_key_ok (x : string) :
  parses x ->
  ('(lo, _) <- _age_group_to_tuple x ;; Ok lo) = Ok (lower_bound x).
Proof.
  intros (lo & hi & E). unfold lower_bound. rewrite E. reflexivity.
Qed.

(** C8.  For a matrix with readable labels and a cell for every pair of
    them, [format_matrix] joins the lines of a header, made of the token
    "Age group" and the labels in ascending order of their lower bound
    (labels of equal lower bound in the order of the matrix), and of one
    line per label in that order, made of the label and the cells of its
    row in that same order; a matrix of one group gives two lines. *)
Theorem format_matrix_layout (m : matrix V) :
  Forall parses (keys m) -> complete m ->
  exists groups,
    Permutation groups (keys m) /\
    Sorted (fun a b => lower_bound a <= lower_bound b) groups /\
    (forall k, filter (fun x => lower_bound x =? k) groups =
               filter (fun x => lower_bound x =? k) (keys m)) /\
    format_lines m = Ok (layout m groups) /\
    format_matrix m = Ok (join newline (layout m groups)) /\
    List.length (layout m groups) = S (List.length (keys m)) /\
    (forall g, keys m = [g] ->
       layout m groups =
       [join "," ["Age group"; g]; join "," [g; str (value m g g)]]).
Proof.
  intros P C. rewrite Forall_forall in P.
  destruct (sorted_spec
              (fun x => '(lo, _) <- _age_group_to_tuple x ;; Ok lo)
              lower_bound (keys m)) as (groups & S & Pm & So & St).
  { intros x I. apply sort_key_ok. auto. }
  exists groups. split; [exact Pm|]. split; [exact So|]. split; [exact St|].
  assert (L : format_lines m = Ok (layout m groups)).
  { unfold format_lines. rewrite S. simpl.
    rewrite (fold_left_snoc (fun g => g) groups ["Age group"]), map_id.
    rewrite (for_each_pure groups _
               (fun ret gi => ret ++ [data_line m groups gi])).
    - rewrite fold_left_snoc. reflexivity.
    - intros gi ret Ii.
      rewrite (for_each_pure groups _
                 (fun row gj => row ++ [str (value m gi gj)])).
      + rewrite fold_left_snoc. reflexivity.
      + intros gj row Ij.
        destruct (complete_value m gi gj C) as (r & L1 & L2);
          try (eapply Permutation_in; eassumption).
        unfold getitem. rewrite L1. simpl. rewrite L2. reflexivity. }
  split; [exact L|].
  split; [unfold format_matrix; rewrite L; reflexivity|].
  split.
  - unfold layout. simpl. rewrite length_map.
    rewrite (Permutation_length Pm). reflexivity.
  - intros g E. rewrite E in Pm.
    apply Permutation_sym, Permutation_length_1_inv in Pm.
    subst groups. reflexivity.
Qed.

End Formatting.

Lemma format_matrix_layout_witness :
  format_lines one_group = Ok ["Age group,5-10"; "5-10,21/500"] /\
  format_lines two_groups =
  Ok ["Age group,0-10,11-20"; "0-10,9/100,21/50"; "11-20,21/50,49/100"].
Proof.
  split.
  - destruct (format_matrix_layout one_group) as (groups & _ & _ & _ & L & _ & _ & O).
    + parses_all.
    + complete_by_cases.
    + rewrite L, (O "5-10" eq_refl). reflexivity.
  - destruct (format_matrix_layout two_groups) as (groups & Pm & So & St & L & _).
    + parses_all.
    + complete_by_cases.
    + rewrite L. f_equal.
      assert (G : groups = ["0-10"; "11-20"]).
      { pose proof (St 0) as S0.
        pose proof (Permutation_length Pm) as Len.
        destruct groups as [|a [|b [|c groups]]]; try discriminate Len.
        assert (Ia : In a (keys two_groups))
          by (eapply Permutation_in; [exact Pm | left; reflexivity]).
        assert (Ib : In b (keys two_groups))
          by (eapply Permutation_in; [exact Pm | right; left; reflexivity]).
        inversion So as [|? ? _ Hd]; subst.
        inversion Hd as [|? ? Le]; subst.
        simpl in Ia, Ib.
        destruct Ia as [<-|[<-|[]]]; destruct Ib as [<-|[<-|[]]];
          try reflexivity; try discriminate S0.
        exfalso. apply Le. reflexivity. }
      rewrite G. reflexivity.
Defined.

(** ** Total mass *)

Lemma NoDup_concat_map {X Y : Type} (f : X -> list Y) (l : list X) :
  NoDup l ->
  (forall x, In x l -> NoDup (f x)) ->
  (forall x x' y, In x l -> In x' l -> In y (f x) -> In y (f x') -> x = x') ->
  NoDup (List.concat (map f l)).
Proof.
  induction l as [|x l IH]; intros ND Nf D; simpl; [constructor|].
  inversion ND as [|? ? N ND']; subst.
  apply NoDup_app.
  - apply Nf. left; reflexivity.
  - apply IH; [exact ND' | |].
    + intros y I. apply Nf. right; exact I.
    + intros a b y Ia Ib. apply D; right; assumption.
  - intros y Iy Ic. apply in_concat in Ic as (ys & Iys & Iy').
    apply in_map_iff in Iys as (x' & <- & Ix').
    assert (x = x') by (apply (D x x' y); simpl; auto).
    subst x'. contradiction.
Qed.

Lemma map_list_prod {A B C : Type} (f : A * B -> C) (xs : list A) (ys : list B) :
  map f (list_prod xs ys) =
  List.concat (map (fun a => map (fun b => f (a, b)) ys) xs).
Proof.
  induction xs as [|x xs IH]; simpl; [reflexivity|].
  rewrite map_app, map_map, IH. reflexivity.
Qed.

Section TotalMass.
Context {V : Type} `{Num V}.
Hypothesis laws : exact_sums.

Lemma fold_add (l : list V) (a : V) : fold_left add l a = add a (sum_list l).
Proof.
  destruct laws as (As & Co & Ze). unfold sum_list.
  revert a. induction l as [|x l IH]; intros a; simpl.
  - rewrite Co. symmetry. apply Ze.
  - rewrite IH, (IH (add zero x)), Ze. symmetry. apply As.
Qed.

Lemma sum_list_app (l1 l2 : list V) :
  sum_list (l1 ++ l2) = add (sum_list l1) (sum_list l2).
Proof.
  unfold sum_list at 1. rewrite fold_left_app. apply fold_add.
Qed.

Lemma sum_list_cons (x : V) (l : list V) : sum_list (x :: l) = add x (sum_list l).
Proof.
  destruct laws as (As & Co & Ze).
  unfold sum_list at 1. simpl. rewrite fold_add, Ze. reflexivity.
Qed.

Lemma sum_list_concat (ls : list (list V)) :
  sum_list (List.concat ls) = sum_list (map sum_list ls).
Proof.
  induction ls as [|l ls IH]; simpl; [reflexivity|].
  rewrite sum_list_app, sum_list_cons, IH. reflexivity.
Qed.

Lemma sum_list_perm (l l' : list V) :
  Permutation l l' -> sum_list l = sum_list l'.
Proof.
  destruct laws as (As & Co & Ze).
  induction 1 as [|x l l' P IH|x y l|l l' l'' P1 IH1 P2 IH2].
  - reflexivity.
  - rewrite !sum_list_cons, IH. reflexivity.
  - rewrite !sum_list_cons, !As, (Co y x). reflexivity.
  - congruence.
Qed.

Lemma square_complete (m : matrix V) : square m -> complete m.
Proof.
  intros [ND Sq] gi gj Ii Ij. unfold cell.
  destruct (lookup_in_keys String.eqb String.eqb_eq gi m Ii) as [r L].
  rewrite L.
  apply (lookup_some_in String.eqb String.eqb_eq) in L.
  rewrite Forall_forall in Sq. specialize (Sq (gi, r) L). simpl in Sq.
  destruct (lookup_in_keys String.eqb String.eqb_eq gj r) as [v Lv].
  - eapply Permutation_in; [apply Permutation_sym; exact Sq | exact Ij].
  - rewrite Lv. discriminate.
Qed.

Lemma values_of_row (m : matrix V) (gi : string) (r : dict string V) :
  NoDup (keys m) -> NoDup (keys r) -> In (gi, r) m ->
  values r = map (value m gi) (keys r).
Proof.
  intros ND NR I. unfold values, keys. rewrite map_map.
  apply map_ext_in. intros [gj v] Ic. simpl.
  unfold value, cell.
  rewrite (lookup_nodup String.eqb String.eqb_eq gi r m ND I).
  rewrite (lookup_nodup String.eqb String.eqb_eq gj v r NR Ic). reflexivity.
Qed.

(** The total of a square matrix is the sum over the pairs of its labels. *)
Lemma total_of_square (m : matrix V) :
  square m ->
  matrix_total m =
  sum_list (map (fun p => value m (fst p) (snd p)) (list_prod (keys m) (keys m))).
Proof.
  intros [ND Sq]. unfold matrix_total.
  rewrite sum_list_concat, map_map, map_list_prod, sum_list_concat, map_map.
  unfold keys at 2. rewrite map_map. f_equal.
  apply map_ext_in. intros [gi r] I. simpl.
  rewrite Forall_forall in Sq. specialize (Sq (gi, r) I). simpl in Sq.
  assert (NR : NoDup (keys r)).
  { eapply Permutation_NoDup; [apply Permutation_sym; exact Sq | exact ND]. }
  rewrite (values_of_row m gi r ND NR I).
  apply sum_list_perm, Permutation_map. exact Sq.
Qed.

Lemma total_of_table (f : string -> string -> V) (rows cols : list string) :
  matrix_total (table f rows cols) =
  sum_list (map (fun p => f (fst p) (snd p)) (list_prod rows cols)).
Proof.
  unfold matrix_total, table. rewrite map_map, map_list_prod. simpl.
  do 2 f_equal. apply map_ext. intros gi.
  unfold values. rewrite map_map. reflexivity.
Qed.

(** The covered pairs of all the new cells are the pairs of original
    groups, each once, when the new groups tile the original ones. *)
Lemma covered_tiles (sm : matrix V) (new_groups : list string) :
  NoDup (keys sm) -> NoDup new_groups -> tiles sm new_groups ->
  Permutation
    (List.concat (map (fun p => covered sm (fst p) (snd p))
                    (list_prod new_groups new_groups)))
    (list_prod (keys sm) (keys sm)).
Proof.
  intros ND NN T. apply NoDup_Permutation.
  - apply NoDup_concat_map.
    + apply NoDup_list_prod; exact NN.
    + intros p _. apply NoDup_filter, NoDup_list_prod; exact ND.
    + intros [ni nj] [ni' nj'] [gi gj] I I'. simpl.
      apply in_prod_iff in I as [Ii Ij]. apply in_prod_iff in I' as [Ii' Ij'].
      rewrite !in_covered. intros (Ki & Kj & Ri & Rj) (_ & _ & Ri' & Rj').
      destruct (T gi Ki) as (n & _ & _ & Un).
      destruct (T gj Kj) as (n' & _ & _ & Un').
      f_equal.
      * rewrite (Un ni), (Un ni'); auto.
      * rewrite (Un' nj), (Un' nj'); auto.
  - apply NoDup_list_prod; exact ND.
  - intros [gi gj]. rewrite in_concat, in_prod_iff. split.
    + intros (l & Il & I). apply in_map_iff in Il as ([ni nj] & <- & _).
      simpl in I. apply in_covered in I. tauto.
    + intros [Ki Kj].
      destruct (T gi Ki) as (ni & Ii & Ri & _).
      destruct (T gj Kj) as (nj & Ij & Rj & _).
      exists (covered sm ni nj). split.
      * apply in_map_iff. exists (ni, nj). split; [reflexivity|].
        apply in_prod_iff. split; assumption.
      * apply in_covered. tauto.
Qed.

Lemma tiles_first_occurrences (sm : matrix V) (new_groups : list string) :
  tiles sm new_groups -> tiles sm (first_occurrences new_groups).
Proof.
  intros T g I. destruct (T g I) as (n & In' & R & U).
  exists n. split; [apply in_first_occurrences; exact In'|].
  split; [exact R|].
  intros n' I' R'. apply U; [apply in_first_occurrences; exact I' | exact R'].
Qed.

End TotalMass.

Section TotalMassClaim.
Context {V : Type} `{Num V}.

(** C4.  In exact arithmetic, for a square scaled matrix with readable
    labels and readable new labels such that every original group lies in
    exactly one new group, the sum of all the cells of the rebinned matrix
    is the sum of all the cells of the scaled matrix. *)
Theorem rebin_preserves_total (sm : matrix V) (new_groups : list string) :
  exact_sums ->
  square sm -> Forall parses (keys sm) -> Forall parses new_groups ->
  tiles sm new_groups ->
  exists nm,
    get_new_matrix sm new_groups = Ok nm /\
    matrix_total nm = matrix_total sm.
Proof.
  intros laws Sq P PN T.
  eexists. split.
  - apply get_new_matrix_table; auto. apply square_complete; assumption.
  - rewrite total_of_table by exact laws.
    rewrite (total_of_square laws sm Sq).
    unfold rebinned_cell.
    rewrite <- (map_map (fun p => map (fun q => value sm (fst q) (snd q))
                                      (covered sm (fst p) (snd p)))
                        sum_list).
    rewrite <- sum_list_concat by exact laws.
    rewrite <- (map_map (fun p => covered sm (fst p) (snd p))
                        (map (fun q => value sm (fst q) (snd q)))).
    rewrite <- concat_map.
    apply (sum_list_perm laws), Permutation_map.
    apply covered_tiles.
    + apply Sq.
    + apply nodup_add_occurrences. constructor.
    + apply tiles_first_occurrences. exact T.
Qed.

End TotalMassClaim.

(** Fractions that are not reduced add up associatively and commutatively. *)
Lemma Q_exact_sums : exact_sums (V := Q).
Proof.
  unfold exact_sums, add, zero; simpl. split; [|split].
  - intros [a b] [c d] [e f]. unfold Qplus; simpl.
    f_equal; [|apply Pos.mul_assoc].
    rewrite !Pos2Z.inj_mul. ring.
  - intros [a b] [c d]. unfold Qplus; simpl.
    f_equal; [ring | apply Pos.mul_comm].
  - intros [a b]. unfold Qplus; simpl. f_equal. lia.
Qed.

Lemma rebin_preserves_total_witness :
  exists nm,
    get_new_matrix two_groups ["0-20"] = Ok nm /\
    matrix_total nm = matrix_total two_groups.
Proof.
  apply (rebin_preserves_total two_groups ["0-20"]).
  - exact Q_exact_sums.
  - split; repeat constructor; simpl; intuition discriminate.
  - parses_all.
  - parses_all.
  - intros g I. exists "0-20". simpl in I.
    split; [left; reflexivity|]. split.
    + destruct I as [<-|[<-|[]]]; reflexivity.
    + intros n' [<-|[]] _. reflexivity.
Defined.

(** ** Loading the proportions *)

Lemma lookup_map_values_Z {A B : Type} (h : Z -> A -> B) (k : Z) (d : dict Z A) :
  lookup Z.eqb k (map (fun c => (fst c, h (fst c) (snd c))) d) =
  option_map (h k) (lookup Z.eqb k d).
Proof.
  induction d as [|[k' v] d IH]; simpl; [reflexivity|].
  destruct (Z.eqb_spec k k'); [subst; reflexivity | exact IH].
Qed.

Section Loading.
Context {V : Type} `{Num V}.

(** One round of the first loop is the reading of the row, then the
    update of the state. *)
Lemma read_age_rows_step (row : csv_row) (st : dict Z V * option V) :
  (let '(ret, total) := st in
   sex <- getitem String.eqb "SEX" row ;;
   if String.eqb sex "0" then
     a <- getitem String.eqb "AGE" row ;;
     age <- int a ;;
     if age =? 999 then
       p <- getitem String.eqb POP_ESTIMATE_COLUMN row ;;
       t <- float p ;;
       Ok (ret, Some t)
     else
       p <- getitem String.eqb POP_ESTIMATE_COLUMN row ;;
       x <- float p ;;
       Ok (setitem Z.eqb age x ret, total)
   else Ok (ret, total))
  = (k <- read_row row ;; Ok (after_row st k)).
Proof.
  destruct st as [ret total]. unfold read_row.
  destruct (getitem String.eqb "SEX" row) as [sex|e]; simpl; [|reflexivity].
  destruct (String.eqb sex "0"); [|reflexivity].
  destruct (getitem String.eqb "AGE" row) as [a|e]; simpl; [|reflexivity].
  destruct (int a) as [age|e]; simpl; [|reflexivity].
  destruct (getitem String.eqb POP_ESTIMATE_COLUMN row) as [p|e]; simpl;
    [|destruct (age =? 999); reflexivity].
  destruct (float p) as [x|e]; simpl; destruct (age =? 999); reflexivity.
Qed.

Lemma read_age_rows_fold (reader : list csv_row) (kinds : list row_kind) :
  map_m read_row reader = Ok kinds ->
  read_age_rows reader = Ok (fold_left after_row kinds ([], None)).
Proof.
  unfold read_age_rows. generalize (@nil (Z * V), @None V).
  revert kinds. induction reader as [|row reader IH]; intros kinds st M.
  - simpl in M. injection M as <-. reflexivity.
  - simpl in M.
    apply bind_ok_inv in M as (k & R & M).
    apply bind_ok_inv in M as (ks & M & E). injection E as <-.
    simpl for_each. rewrite (read_age_rows_step row st), R. simpl.
    apply IH. exact M.
Qed.

Lemma after_rows_keys (kinds : list row_kind) (st : dict Z V * option V) :
  NoDup (keys (fst st)) -> NoDup (keys (fst (fold_left after_row kinds st))).
Proof.
  revert st. induction kinds as [|k kinds IH]; intros st ND; simpl; [exact ND|].
  apply IH. destruct k as [|t|a x]; simpl; try exact ND.
  destruct (in_dec Z.eq_dec a (keys (fst st))) as [I|N].
  - rewrite (keys_setitem_old Z.eqb Z.eqb_eq) by exact I. exact ND.
  - rewrite (setitem_new Z.eqb Z.eqb_eq) by exact N.
    unfold keys. rewrite map_app. simpl.
    apply NoDup_app; [exact ND | repeat constructor; simpl; tauto |].
    intros y Iy [<-|[]]. contradiction.
Qed.

(** Without a row of age 999 the total stays unbound. *)
Lemma after_rows_no_sentinel (kinds : list row_kind) (st : dict Z V * option V) :
  (forall t, ~ In (Sentinel t) kinds) ->
  snd (fold_left after_row kinds st) = snd st.
Proof.
  revert st. induction kinds as [|k kinds IH]; intros st N; simpl; [reflexivity|].
  rewrite IH by (intros t I; apply (N t); right; exact I).
  destruct k as [|t|a x]; simpl; try reflexivity.
  exfalso. apply (N t). left; reflexivity.
Qed.

(** The total is that of the last row of age 999. *)
Lemma after_rows_last_sentinel (pre post : list row_kind) (t : V)
  (st : dict Z V * option V) :
  (forall t', ~ In (Sentinel t') post) ->
  snd (fold_left after_row (pre ++ Sentinel t :: post) st) = Some t.
Proof.
  intros N. rewrite fold_left_app. simpl.
  rewrite after_rows_no_sentinel by exact N. reflexivity.
Qed.

Lemma after_rows_no_count (kinds : list row_kind) (a : Z)
  (st : dict Z V * option V) :
  (forall x, ~ In (Count a x) kinds) ->
  lookup Z.eqb a (fst (fold_left after_row kinds st)) = lookup Z.eqb a (fst st).
Proof.
  revert st. induction kinds as [|k kinds IH]; intros st N; simpl; [reflexivity|].
  rewrite IH by (intros x I; apply (N x); right; exact I).
  destruct k as [|t|b x]; simpl; try reflexivity.
  apply (lookup_setitem_other Z.eqb Z.eqb_eq).
  intros ->. apply (N x). left; reflexivity.
Qed.

(** The count of an age is that of its last row. *)
Lemma after_rows_last_count (pre post : list row_kind) (a : Z) (x : V)
  (st : dict Z V * option V) :
  (forall y, ~ In (Count a y) post) ->
  lookup Z.eqb a (fst (fold_left after_row (pre ++ Count a x :: post) st)) = Some x.
Proof.
  intros N. rewrite fold_left_app. simpl.
  rewrite after_rows_no_count by exact N. simpl.
  apply (lookup_setitem_same Z.eqb Z.eqb_eq).
Qed.

Lemma after_rows_counts_only (kinds : list row_kind) (a : Z)
  (st : dict Z V * option V) :
  lookup Z.eqb a (fst (fold_left after_row kinds st)) <> None ->
  lookup Z.eqb a (fst st) <> None \/ exists x, In (Count a x) kinds.
Proof.
  revert st. induction kinds as [|k kinds IH]; intros st L; simpl in *; [auto|].
  destruct (IH _ L) as [L'|(x & I)]; [|right; exists x; auto].
  destruct k as [|t|b y]; simpl in L'; auto.
  destruct (Z.eq_dec b a) as [->|N].
  - right. exists y. auto.
  - rewrite (lookup_setitem_other Z.eqb Z.eqb_eq) in L' by exact N. auto.
Qed.

(** A count that was read is in the state. *)
Lemma after_rows_has_count (kinds : list row_kind) (a : Z) (x : V)
  (st : dict Z V * option V) :
  In (Count a x) kinds ->
  lookup Z.eqb a (fst (fold_left after_row kinds st)) <> None.
Proof.
  revert st. induction kinds as [|k kinds IH]; intros st I; [destruct I|].
  simpl. destruct I as [->|I]; [|apply IH; exact I].
  destruct (in_dec Z.eq_dec a (keys (fst (fold_left after_row kinds
              (after_row st (Count a x)))))) as [K|K].
  - apply (lookup_in_keys Z.eqb Z.eqb_eq) in K as [v ->]. discriminate.
  - exfalso. apply K. clear K.
    assert (G : forall ks (s : dict Z V * option V),
              In a (keys (fst s)) -> In a (keys (fst (fold_left after_row ks s)))).
    { induction ks as [|k ks IHk]; intros s Is; simpl; [exact Is|].
      apply IHk. destruct k as [|t|b y]; simpl; try exact Is.
      apply (contains_iff Z.eqb Z.eqb_eq).
      unfold contains.
      destruct (Z.eq_dec b a) as [->|N].
      - rewrite (lookup_setitem_same Z.eqb Z.eqb_eq). reflexivity.
      - rewrite (lookup_setitem_other Z.eqb Z.eqb_eq) by exact N.
        apply (contains_iff Z.eqb Z.eqb_eq) in Is. exact Is. }
    apply G. simpl. apply (contains_iff Z.eqb Z.eqb_eq). unfold contains.
    rewrite (lookup_setitem_same Z.eqb Z.eqb_eq). reflexivity.
Qed.

End Loading.

Section LoadingClaim.
Context {V : Type} `{Num V}.

(** The second loop with a bound total divides every count. *)
Lemma scale_by_total_bound (t : V) (quot : V -> V) :
  (forall x, truediv x t = Ok (quot x)) ->
  forall todo done : dict Z V,
    NoDup (keys (done ++ todo)) ->
    for_each (keys todo)
      (fun k ret =>
         v <- getitem Z.eqb k ret ;;
         match Some t with
         | None => Raise UnboundLocalError
         | Some t =>
             q <- truediv v t ;;
             Ok (setitem Z.eqb k q ret)
         end)
      (done ++ todo)
    = Ok (done ++ map (fun c => (fst c, quot (snd c))) todo).
Proof.
  intros Q. induction todo as [|[k v] todo IH]; intros done ND; simpl.
  - reflexivity.
  - assert (N : ~ In k (keys done)).
    { unfold keys in *. rewrite map_app in ND. simpl in ND.
      apply NoDup_remove_2 in ND. intros I. apply ND.
      apply in_or_app. left; exact I. }
    assert (L : lookup Z.eqb k (done ++ (k, v) :: todo) = Some v).
    { clear - N. induction done as [|[k' v'] done IH]; simpl.
      - rewrite Z.eqb_refl. reflexivity.
      - simpl in N. destruct (Z.eqb_spec k k'); [subst; tauto | apply IH; tauto]. }
    assert (S : forall q, setitem Z.eqb k q (done ++ (k, v) :: todo)
                          = (done ++ [(k, q)]) ++ todo).
    { intros q. clear - N. induction done as [|[k' v'] done IH]; simpl.
      - rewrite Z.eqb_refl. reflexivity.
      - simpl in N. destruct (Z.eqb_spec k k'); [subst; tauto|].
        rewrite IH by tauto. reflexivity. }
    unfold getitem at 1. rewrite L. simpl. rewrite Q. simpl.
    rewrite S, IH.
    + rewrite <- app_assoc. reflexivity.
    + unfold keys in *. rewrite <- app_assoc. simpl.
      rewrite map_app in *. simpl in *. exact ND.
Qed.

(** The second loop with an unbound total raises at its first round. *)
Lemma scale_by_total_unbound (ret : dict Z V) :
  scale_by_total ret None =
  match ret with
  | [] => Ok []
  | _ :: _ => Raise UnboundLocalError
  end.
Proof.
  destruct ret as [|[k v] ret]; [reflexivity|].
  unfold scale_by_total. simpl. unfold getitem. simpl.
  rewrite Z.eqb_refl. reflexivity.
Qed.

(** C7 (as the code has it).  For a population table whose rows are read
    without an exception: without a row of age 999 of both sexes the
    loader raises UnboundLocalError when an age of both sexes was read,
    and returns the empty table when none was; with such a row, whose
    total divides, every age of both sexes maps to the count of its last
    row divided by the total of the last row of age 999, and the table
    has no other age. *)
Theorem load_age_proportions_spec (reader : list csv_row) (kinds : list row_kind) :
  map_m read_row reader = Ok kinds ->
  ((forall t, ~ In (Sentinel t) kinds) ->
     ((forall a x, ~ In (Count a x) kinds) -> load_age_proportions reader = Ok []) /\
     ((exists a x, In (Count a x) kinds) ->
        load_age_proportions reader = Raise UnboundLocalError)) /\
  (forall pre t post quot,
     kinds = pre ++ Sentinel t :: post ->
     (forall t', ~ In (Sentinel t') post) ->
     (forall x, truediv x t = Ok (quot x)) ->
     exists tbl,
       load_age_proportions reader = Ok tbl /\
       (forall a, lookup Z.eqb a tbl <> None -> exists x, In (Count a x) kinds) /\
       (forall pre' a x post',
          kinds = pre' ++ Count a x :: post' ->
          (forall y, ~ In (Count a y) post') ->
          lookup Z.eqb a tbl = Some (quot x))).
Proof.
  intros M.
  pose proof (read_age_rows_fold reader kinds M) as R.
  pose proof (after_rows_keys kinds ([], None) ltac:(constructor)) as ND.
  unfold load_age_proportions. rewrite R. simpl.
  destruct (fold_left after_row kinds ([], None)) as [ret total] eqn:F.
  simpl in ND. split.
  - intros NS.
    pose proof (after_rows_no_sentinel kinds ([], None) NS) as T.
    rewrite F in T. simpl in T. subst total.
    rewrite scale_by_total_unbound. split.
    + intros NC. destruct ret as [|[a v] ret]; [reflexivity|].
      destruct (after_rows_counts_only kinds a ([], None)) as [L|(x & I)].
      * rewrite F. simpl. rewrite Z.eqb_refl. discriminate.
      * simpl in L. congruence.
      * exfalso. apply (NC a x). exact I.
    + intros (a & x & I). destruct ret as [|c ret]; [|reflexivity].
      pose proof (after_rows_has_count kinds a x ([], None) I) as L.
      rewrite F in L. simpl in L. congruence.
  - intros pre t post quot E NS Q.
    pose proof (after_rows_last_sentinel pre post t ([], None) NS) as T.
    rewrite <- E, F in T. simpl in T. subst total.
    pose proof (scale_by_total_bound t quot Q ret [] ND) as SB.
    unfold scale_by_total. simpl in SB |- *. rewrite SB.
    eexists. split; [reflexivity|]. split.
    + intros a L.
      rewrite (lookup_map_values_Z (fun _ => quot)) in L.
      destruct (after_rows_counts_only kinds a ([], None)) as [L'|X]; auto.
      * rewrite F. simpl. destruct (lookup Z.eqb a ret); [discriminate | auto].
      * simpl in L'. congruence.
    + intros pre' a x post' E' N'.
      pose proof (after_rows_last_count pre' post' a x ([], None) N') as L.
      rewrite <- E', F in L. simpl in L.
      rewrite (lookup_map_values_Z (fun _ => quot)), L. reflexivity.
Qed.

End LoadingClaim.

Lemma load_age_proportions_spec_witness :
  exists tbl,
    load_age_proportions census_rows = Ok tbl /\
    lookup Z.eqb 0 tbl = Some (3 # 10)%Q /\
    lookup Z.eqb 1 tbl = Some (7 # 10)%Q.
Proof.
  destruct (@load_age_proportions_spec Q Q_Num census_rows
              [Count 0 30%Q; Other; Count 1 70%Q; Sentinel 100%Q] eq_refl)
    as [_ S].
  destruct (S [Count 0 30%Q; Other; Count 1 70%Q] 100%Q []
              (fun x => Qred (x / 100)) eq_refl)
    as (tbl & E & _ & C).
  - intros t' [].
  - intros x. reflexivity.
  - exists tbl. split; [exact E|]. split.
    + apply (C [] 0 30%Q [Other; Count 1 70%Q; Sentinel 100%Q] eq_refl).
      intros y [I|[I|[I|[]]]]; discriminate I.
    + apply (C [Count 0 30%Q; Other] 1 70%Q [Sentinel 100%Q] eq_refl).
      intros y [I|[]]; discriminate I.
Defined.

(** C7, the counterexample: a table without a row of age 999 of both
    sexes, and without any row of both sexes, is loaded as the empty
    table. *)
Lemma load_without_sentinel_returns :
  (forall row, In row one_sex_rows ->
     read_row (V := Q) row <> Ok (Sentinel 0%Q) /\
     exists k, read_row (V := Q) row = Ok k /\ forall t, k <> Sentinel t) /\
  load_age_proportions (V := Q) one_sex_rows = Ok [] /\
  ~ (exists e, load_age_proportions (V := Q) one_sex_rows = Raise e).
Proof.
  split; [|split].
  - intros row [<-|[<-|[]]]; (split; [discriminate|]);
      exists Other; (split; [reflexivity | discriminate]).
  - reflexivity.
  - intros [e E]. discriminate E.
Qed.

(** * Further properties *)

(** ** Labels and containment *)

Lemma length_split (sep : ascii) (s : string) :
  List.length (split sep s) = S (count_char sep s).
Proof.
  induction s as [|c s IH]; simpl; [reflexivity|].
  destruct (Ascii.eqb c sep); simpl.
  - rewrite IH. reflexivity.
  - pose proof (split_not_nil sep s) as N.
    destruct (split sep s) as [|h t]; [contradiction|].
    simpl in *. exact IH.
Qed.

Lemma digit_value_bounds (c : ascii) (d : Z) :
  digit_value c = Some d -> 0 <= d <= 9.
Proof.
  unfold digit_value.
  destruct ((48 <=? nat_of_ascii c)%nat && (nat_of_ascii c <=? 57)%nat) eqn:E;
    [|discriminate].
  intros [= <-]. apply andb_true_iff in E as [E1 E2].
  apply Nat.leb_le in E1, E2. lia.
Qed.

Lemma int_digits_nonneg (s : string) :
  forall acc n us r, 0 <= acc -> int_digits s acc n us = Some r -> 0 <= r.
Proof.
  induction s as [|c s IH]; intros acc n us r A; simpl.
  - destruct us; [discriminate|].
    destruct (n =? 0)%nat; [discriminate|].
    destruct (int_max_str_digits <? n)%nat; [discriminate|].
    intros [= <-]. exact A.
  - destruct (digit_value c) as [d|] eqn:D.
    + apply digit_value_bounds in D. apply IH. lia.
    + destruct (is_underscore c).
      * destruct us; [discriminate|].
        destruct (n =? 0)%nat; [discriminate|]. apply IH. exact A.
      * destruct (is_space c && all_space s); [|discriminate].
        destruct us; [discriminate|].
        destruct (n =? 0)%nat; [discriminate|].
        destruct (int_max_str_digits <? n)%nat; [discriminate|].
        intros [= <-]. exact A.
Qed.

Lemma occurs_lstrip (c : ascii) (s : string) :
  occurs c s = false -> occurs c (lstrip s) = false.
Proof.
  induction s as [|a s IH]; simpl; [auto|].
  intros O. apply orb_false_iff in O as [E O].
  destruct (is_space a); [apply IH; exact O|].
  simpl. rewrite E, O. reflexivity.
Qed.

(** A text without a minus sign is never read as a negative number. *)
Lemma int_nonneg (s : string) (n : Z) :
  occurs "-" s = false -> int s = Ok n -> 0 <= n.
Proof.
  intros O. apply occurs_lstrip in O. unfold int.
  destruct (lstrip s) as [|c t] eqn:L.
  - simpl. discriminate.
  - simpl in O. apply orb_false_iff in O as [E _].
    destruct (Ascii.eqb_spec c "-") as [->|Nm]; [discriminate|].
    destruct (Ascii.eqb_spec c "+") as [->|Np].
    + destruct (int_digits t 0 0 false) as [r|] eqn:D; [|discriminate].
      intros [= <-]. eapply int_digits_nonneg; [|exact D]. lia.
    + assert (M : match String c t with
                  | String "+" s' => int_digits s' 0 0%nat false
                  | String "-" s' => option_map Z.opp (int_digits s' 0 0%nat false)
                  | s' => int_digits s' 0 0%nat false
                  end = int_digits (String c t) 0 0%nat false).
      { destruct c as [[] [] [] [] [] [] [] []]; try reflexivity;
          exfalso; [apply Np | apply Nm]; reflexivity. }
      rewrite M.
      destruct (int_digits (String c t) 0 0 false) as [r|] eqn:D; [|discriminate].
      intros [= <-]. eapply int_digits_nonneg; [|exact D]. lia.
Qed.

(** X1.  A label that [_age_group_to_tuple] accepts has exactly one
    separator, and neither bound it returns is negative. *)
Theorem age_group_to_tuple_bounds (label : string) (L U : Z) :
  _age_group_to_tuple label = Ok (L, U) ->
  count_char "-" label = 1%nat /\ 0 <= L /\ 0 <= U.
Proof.
  intros E. unfold _age_group_to_tuple in E.
  pose proof (length_split "-" label) as Len.
  pose proof (split_parts_no_sep "-" label) as P.
  destruct (split "-" label) as [|l [|u [|x t]]]; try discriminate.
  apply bind_ok_inv in E as (L' & Il & E).
  apply bind_ok_inv in E as (U' & Iu & E).
  injection E as <- <-. simpl in Len.
  split; [lia|]. split.
  - apply (int_nonneg l); [apply P; simpl; auto | exact Il].
  - apply (int_nonneg u); [apply P; simpl; auto | exact Iu].
Qed.

Lemma age_group_to_tuple_bounds_witness :
  count_char "-" " 3 - +1_2 " = 1%nat /\ 0 <= 3 /\ 0 <= 12.
Proof.
  apply (age_group_to_tuple_bounds " 3 - +1_2 " 3 12). reflexivity.
Defined.

Lemma is_group_in_group_true (a b : string) :
  _is_group_in_group a b = Ok true <->
  exists amin amax bmin bmax,
    _age_group_to_tuple a = Ok (amin, amax) /\
    _age_group_to_tuple b = Ok (bmin, bmax) /\
    bmin <= amin /\ amax <= bmax.
Proof.
  unfold _is_group_in_group. split.
  - intros E.
    apply bind_ok_inv in E as ([bmin bmax] & Eb & E).
    apply bind_ok_inv in E as ([amin amax] & Ea & E).
    injection E as E. apply andb_true_iff in E as [E1 E2].
    exists amin, amax, bmin, bmax. rewrite Z.geb_leb in E1.
    apply Z.leb_le in E1, E2. auto.
  - intros (amin & amax & bmin & bmax & Ea & Eb & L1 & L2).
    rewrite Ea, Eb. simpl. rewrite Z.geb_leb.
    rewrite (proj2 (Z.leb_le bmin amin) L1), (proj2 (Z.leb_le amax bmax) L2).
    reflexivity.
Qed.

(** X2.  Containment is transitive: a group in a second group that is in
    a third one is in the third. *)
Theorem is_group_in_group_trans (a b c : string) :
  _is_group_in_group a b = Ok true ->
  _is_group_in_group b c = Ok true ->
  _is_group_in_group a c = Ok true.
Proof.
  rewrite !is_group_in_group_true.
  intros (amin & amax & bmin & bmax & Ea & Eb & L1 & L2)
         (bmin' & bmax' & cmin & cmax & Eb' & Ec & L3 & L4).
  rewrite Eb in Eb'. injection Eb' as <- <-.
  exists amin, amax, cmin, cmax. repeat split; auto; lia.
Qed.

Lemma is_group_in_group_trans_witness :
  _is_group_in_group "5-10" "0-100" = Ok true.
Proof.
  apply (is_group_in_group_trans "5-10" "0-15" "0-100"); reflexivity.
Defined.

(** X3.  Every readable group is in itself, and two groups that are in
    each other have the same bounds, whatever their spelling. *)
Theorem is_group_in_group_refl_antisym (a b : string) :
  (parses a -> _is_group_in_group a a = Ok true) /\
  (_is_group_in_group a b = Ok true -> _is_group_in_group b a = Ok true ->
   _age_group_to_tuple a = _age_group_to_tuple b).
Proof.
  split.
  - intros (lo & hi & E). apply is_group_in_group_true.
    exists lo, hi, lo, hi. repeat split; auto; lia.
  - rewrite !is_group_in_group_true.
    intros (amin & amax & bmin & bmax & Ea & Eb & L1 & L2)
           (bmin' & bmax' & amin' & amax' & Eb' & Ea' & L3 & L4).
    rewrite Eb in Eb'. injection Eb' as <- <-.
    rewrite Ea in Ea'. injection Ea' as <- <-.
    rewrite Ea, Eb. do 2 f_equal; lia.
Qed.

Lemma is_group_in_group_refl_antisym_witness :
  _is_group_in_group "0-5" "0-5" = Ok true /\
  _age_group_to_tuple "0-5" = _age_group_to_tuple "00-5".
Proof.
  destruct (is_group_in_group_refl_antisym "0-5" "00-5") as [R A].
  split; [apply R; exists 0, 5; reflexivity | apply A; reflexivity].
Defined.

(** X4.  [_is_group_in_group] raises exactly when one of the two labels is
    unreadable, and then it raises ValueError. *)
Theorem is_group_in_group_raises (a b : string) (e : exn) :
  (_is_group_in_group a b = Raise e -> e = ValueError) /\
  (_is_group_in_group a b = Raise ValueError <-> ~ (parses a /\ parses b)).
Proof.
  unfold _is_group_in_group, parses.
  destruct (_age_group_to_tuple b) as [[bmin bmax]|eb] eqn:Eb; simpl.
  - destruct (_age_group_to_tuple a) as [[amin amax]|ea] eqn:Ea; simpl.
    + split; [discriminate|]. split; [discriminate|].
      intros N. exfalso. apply N. split; eauto.
    + apply tuple_raises_value_error in Ea. subst ea.
      split; [intros [= <-]; reflexivity|]. split; [|reflexivity].
      intros _ [(lo & hi & E) _]. discriminate E.
  - apply tuple_raises_value_error in Eb. subst eb.
    split; [intros [= <-]; reflexivity|]. split; [|reflexivity].
    intros _ [_ (lo & hi & E)]. discriminate E.
Qed.

(** ** Loops that return, loops that raise *)

Lemma for_each_ok_inv {A S : Type} (xs : list A) (body : A -> S -> result S) :
  forall s s', for_each xs body s = Ok s' ->
  forall x, In x xs -> exists s1 s2, body x s1 = Ok s2.
Proof.
  induction xs as [|y xs IH]; intros s s' E x I; [destruct I|].
  simpl in E. apply bind_ok_inv in E as (t & B & E).
  destruct I as [->|I]; [eauto | eapply IH; eauto].
Qed.

Lemma for_each_raise_inv {A S : Type} (xs : list A) (body : A -> S -> result S) :
  forall s e, for_each xs body s = Raise e ->
  exists x s1, In x xs /\ body x s1 = Raise e.
Proof.
  induction xs as [|y xs IH]; intros s e E; [discriminate|].
  simpl in E. destruct (body y s) as [t|e'] eqn:B; simpl in E.
  - destruct (IH t e E) as (x & s1 & I & R). exists x, s1.
    split; [right; exact I | exact R].
  - injection E as <-. exists y, s. split; [left; reflexivity | exact B].
Qed.

(** A loop whose rounds leave the state alone until one raises. *)
Lemma for_each_first_raise {A S : Type} (pre post : list A) (x : A)
  (body : A -> S -> result S) (s : S) (e : exn) :
  (forall y, In y pre -> body y s = Ok s) ->
  body x s = Raise e ->
  for_each (pre ++ x :: post) body s = Raise e.
Proof.
  intros P R. induction pre as [|y pre IH]; simpl.
  - rewrite R. reflexivity.
  - rewrite P by (left; reflexivity). simpl.
    apply IH. intros z I. apply P. right; exact I.
Qed.

Lemma split_at_first {A : Type} (P : A -> bool) (l : list A) (x : A) :
  In x l -> P x = true ->
  exists pre y post,
    l = pre ++ y :: post /\ P y = true /\ forall z, In z pre -> P z = false.
Proof.
  induction l as [|a l IH]; intros I Px; [destruct I|].
  destruct (P a) eqn:Pa.
  - exists [], a, l. split; [reflexivity|]. split; [exact Pa|].
    intros z Iz. destruct Iz.
  - destruct I as [->|I]; [congruence|].
    destruct (IH I Px) as (pre & y & post & -> & Py & F).
    exists (a :: pre), y, post. split; [reflexivity|]. split; [exact Py|].
    intros z [<-|Iz]; auto.
Qed.

(** ** More on the population share *)

Lemma seq_from (a n : nat) : seq a n = map (fun k => (a + k)%nat) (seq 0 n).
Proof.
  induction a as [|a IH]; simpl.
  - symmetry. apply map_id.
  - rewrite <- seq_shift, IH, map_map. reflexivity.
Qed.

Lemma range_app (lo mid hi : Z) :
  lo <= mid -> mid <= hi -> range lo hi = range lo mid ++ range mid hi.
Proof.
  intros L1 L2. unfold range.
  replace (Z.to_nat (hi - lo))
    with (Z.to_nat (mid - lo) + Z.to_nat (hi - mid))%nat by lia.
  rewrite seq_app, map_app. f_equal. simpl.
  rewrite seq_from, map_map. apply map_ext. intros k. lia.
Qed.

Section ProportionMore.
Context {V : Type} `{Num V}.

Lemma proportion_ok_has_share (tbl : dict Z V) (g : string) (p : V) :
  _proportion_in_group tbl g = Ok p -> has_share tbl g.
Proof.
  unfold _proportion_in_group, has_share.
  destruct (_age_group_to_tuple g) as [[lo hi]|e] eqn:E; simpl; [|discriminate].
  intros L. exists lo, hi. split; [reflexivity|].
  intros a B N.
  rewrite (proportion_loop_missing tbl (range lo (hi + 1)) a) in L;
    [discriminate | apply range_in_bounds; lia | exact N].
Qed.

Lemma proportion_raises (tbl : dict Z V) (g : string) (e : exn) :
  _proportion_in_group tbl g = Raise e ->
  (e = ValueError /\ ~ parses g) \/ (e = KeyError /\ parses g).
Proof.
  unfold _proportion_in_group, parses.
  destruct (_age_group_to_tuple g) as [[lo hi]|e'] eqn:E; simpl.
  - intros R. right. split; [|eauto].
    apply for_each_raise_inv in R as (a & s & _ & R).
    unfold getitem in R. destruct (lookup Z.eqb a tbl); simpl in R; congruence.
  - intros [= <-]. left. split.
    + eapply tuple_raises_value_error; eauto.
    + intros (lo & hi & E'). discriminate E'.
Qed.

(** X5.  [_proportion_in_group] returns exactly for the readable labels
    whose ages the table all has; it raises ValueError exactly for the
    unreadable labels, and KeyError otherwise. *)
Theorem proportion_in_group_returns_iff (tbl : dict Z V) (g : string) :
  ((exists p, _proportion_in_group tbl g = Ok p) <-> has_share tbl g) /\
  (_proportion_in_group tbl g = Raise ValueError <-> ~ parses g) /\
  (forall e, _proportion_in_group tbl g = Raise e ->
     e = ValueError \/ e = KeyError).
Proof.
  split; [|split].
  - split.
    + intros [p E]. eapply proportion_ok_has_share; eauto.
    + intros S. eexists. apply proportion_is_share. exact S.
  - split.
    + intros R. apply proportion_raises in R as [[_ N]|[D _]];
        [exact N | discriminate D].
    + intros N. unfold _proportion_in_group.
      destruct (_age_group_to_tuple g) as [[lo hi]|e] eqn:E; simpl.
      * exfalso. apply N. exists lo, hi. exact E.
      * apply tuple_raises_value_error in E. subst e. reflexivity.
  - intros e R. apply proportion_raises in R. tauto.
Qed.

(** X6.  In exact arithmetic the share of a group is the sum of the
    shares of two groups that split its range of ages. *)
Theorem proportion_in_group_additive (tbl : dict Z V) (a b c : string)
  (L M U : Z) :
  exact_sums ->
  _age_group_to_tuple a = Ok (L, M) ->
  _age_group_to_tuple b = Ok (M + 1, U) ->
  _age_group_to_tuple c = Ok (L, U) ->
  L <= M + 1 -> M <= U ->
  has_share tbl c ->
  exists pa pb,
    _proportion_in_group tbl a = Ok pa /\
    _proportion_in_group tbl b = Ok pb /\
    _proportion_in_group tbl c = Ok (add pa pb).
Proof.
  intros laws Ea Eb Ec L1 L2 Sc.
  assert (Sa : has_share tbl a).
  { destruct Sc as (lo & hi & E & A). rewrite Ec in E. injection E as <- <-.
    exists L, M. split; [exact Ea|]. intros x B. apply A. lia. }
  assert (Sb : has_share tbl b).
  { destruct Sc as (lo & hi & E & A). rewrite Ec in E. injection E as <- <-.
    exists (M + 1), U. split; [exact Eb|]. intros x B. apply A. lia. }
  exists (population_share tbl a), (population_share tbl b).
  split; [apply proportion_is_share; exact Sa|].
  split; [apply proportion_is_share; exact Sb|].
  rewrite (proportion_is_share tbl c Sc). f_equal.
  unfold population_share. rewrite Ea, Eb, Ec.
  rewrite (range_app L (M + 1) (U + 1)) by lia.
  rewrite map_app. apply sum_list_app. exact laws.
Qed.

End ProportionMore.

Lemma proportion_in_group_additive_witness :
  exists pa pb,
    _proportion_in_group four_ages "0-1" = Ok pa /\
    _proportion_in_group four_ages "2-3" = Ok pb /\
    _proportion_in_group four_ages "0-3" = Ok (add pa pb).
Proof.
  apply (proportion_in_group_additive four_ages "0-1" "2-3" "0-3" 0 1 3).
  - exact Q_exact_sums.
  - reflexivity.
  - reflexivity.
  - reflexivity.
  - lia.
  - lia.
  - apply has_share_check_ok. reflexivity.
Defined.

(** ** More on scaling *)

Section ScalingMore.
Context {V : Type} `{Num V}.

Lemma square_well_keyed (m : matrix V) : square m -> well_keyed m.
Proof.
  intros [ND Sq]. split; [exact ND|].
  rewrite Forall_forall in *. intros r I.
  eapply Permutation_NoDup; [apply Permutation_sym, Sq, I | exact ND].
Qed.

Lemma cell_some_in (m : matrix V) (gi gj : string) (v : V) :
  cell m gi gj = Some v ->
  exists row, In (gi, row) m /\ In (gj, v) row.
Proof.
  unfold cell. destruct (lookup String.eqb gi m) as [row|] eqn:L; [|discriminate].
  intros C. exists row. split; apply (lookup_some_in String.eqb String.eqb_eq);
    assumption.
Qed.

(** X7.  On a raw matrix without repeated keys, [get_scaled_matrix]
    returns exactly when every label of a cell, row or column, is readable
    and has all its ages in the table; otherwise it raises ValueError or
    KeyError. *)
Theorem get_scaled_matrix_returns_iff (tbl : dict Z V) (raw : matrix V) :
  well_keyed raw ->
  ((exists sm, get_scaled_matrix tbl raw = Ok sm) <->
   (forall gi gj v, cell raw gi gj = Some v ->
      has_share tbl gi /\ has_share tbl gj)) /\
  (forall e, get_scaled_matrix tbl raw = Raise e ->
     e = ValueError \/ e = KeyError).
Proof.
  intros W. split; [split|].
  - intros [sm E] gi gj v C.
    apply cell_some_in in C as (row & Ir & Ic).
    unfold get_scaled_matrix in E.
    destruct (for_each_ok_inv _ _ _ _ E (gi, row) Ir) as (s1 & s2 & E1).
    destruct (for_each_ok_inv _ _ _ _ E1 (gj, v) Ic) as (t1 & t2 & E2).
    cbv zeta in E2.
    apply bind_ok_inv in E2 as (pi & Pi & E2).
    apply bind_ok_inv in E2 as (pj & Pj & _).
    split; eapply proportion_ok_has_share; eauto.
  - intros S. eexists. apply get_scaled_matrix_cells; assumption.
  - intros e R. unfold get_scaled_matrix in R.
    apply for_each_raise_inv in R as ([gi row] & s1 & _ & R).
    apply for_each_raise_inv in R as ([gj v] & t1 & _ & R).
    cbv zeta in R.
    destruct (_proportion_in_group tbl gi) as [pi|e1] eqn:Pi.
    + destruct (_proportion_in_group tbl gj) as [pj|e2] eqn:Pj.
      * pose proof (store_body gi gj (mul (mul pi pj) v) t1) as B.
        cbv beta iota zeta delta [bind] in R, B.
        pose proof (eq_trans (eq_sym B) R) as X. discriminate X.
      * injection R as <-. apply proportion_raises in Pj. tauto.
    + injection R as <-. apply proportion_raises in Pi. tauto.
Qed.

Lemma filter_all {A : Type} (P : A -> bool) (l : list A) :
  (forall x, In x l -> P x = true) -> filter P l = l.
Proof.
  induction l as [|x l IH]; intros F; simpl; [reflexivity|].
  rewrite F by (left; reflexivity). f_equal.
  apply IH. intros y I. apply F. right; exact I.
Qed.

Lemma map_cells_all_rows (f : string -> string -> V -> V) (raw : matrix V) :
  (forall r, In r raw -> snd r <> []) ->
  map_cells f raw =
  map (fun r => (fst r, map (fun c => (fst c, f (fst r) (fst c) (snd c))) (snd r)))
      raw.
Proof.
  intros NE. unfold map_cells. f_equal.
  apply filter_all. intros r I. specialize (NE r I).
  destruct (snd r) eqn:E; [contradiction | reflexivity].
Qed.

Lemma mapped_rows_square (g : string * dict string V -> dict string V)
  (raw : matrix V) :
  square raw -> (forall r, keys (g r) = keys (snd r)) ->
  let m := map (fun r => (fst r, g r)) raw in
  keys m = keys raw /\ square m.
Proof.
  intros [ND Sq] G m. rewrite Forall_forall in Sq.
  assert (K : keys m = keys raw).
  { unfold m, keys. rewrite map_map. reflexivity. }
  split; [exact K|]. unfold square. rewrite K. split; [exact ND|].
  apply Forall_forall. intros r I. unfold m in I.
  apply in_map_iff in I as (r0 & <- & I0). simpl.
  rewrite G. apply (Sq r0 I0).
Qed.

(** The scaled matrix of a square matrix: same labels, same order. *)
Lemma map_cells_square (f : string -> string -> V -> V) (raw : matrix V) :
  square raw ->
  keys (map_cells f raw) = keys raw /\ square (map_cells f raw).
Proof.
  intros Sq. rewrite map_cells_all_rows.
  - apply (mapped_rows_square
             (fun r => map (fun c => (fst c, f (fst r) (fst c) (snd c))) (snd r))
             raw Sq).
    intros r. unfold keys. rewrite map_map. reflexivity.
  - destruct Sq as [ND Sq]. rewrite Forall_forall in Sq.
    intros [gi row] I E. simpl in E. subst row.
    specialize (Sq (gi, []) I). simpl in Sq.
    apply Permutation_nil in Sq. apply (in_map fst) in I.
    unfold keys in Sq. rewrite Sq in I. destruct I.
Qed.

(** X8.  Scaling keeps a matrix square: for a square raw matrix whose
    labels all have a share, the scaled matrix has the same labels in the
    same order, all readable, and is square, so that [get_new_matrix]
    accepts it with any readable new labels. *)
Theorem scaled_matrix_is_square (tbl : dict Z V) (raw : matrix V) :
  square raw ->
  (forall g, In g (keys raw) -> has_share tbl g) ->
  exists sm,
    get_scaled_matrix tbl raw = Ok sm /\
    keys sm = keys raw /\ square sm /\ Forall parses (keys sm) /\
    forall new_groups, Forall parses new_groups ->
      exists nm, get_new_matrix sm new_groups = Ok nm.
Proof.
  intros Sq S.
  pose proof (square_well_keyed raw Sq) as W.
  assert (C : forall gi gj v, cell raw gi gj = Some v ->
                has_share tbl gi /\ has_share tbl gj).
  { intros gi gj v Cv. apply cell_some_in in Cv as (row & Ir & Ic).
    destruct Sq as [ND Sq]. rewrite Forall_forall in Sq.
    split; apply S.
    - apply (in_map fst) in Ir. exact Ir.
    - eapply Permutation_in; [apply (Sq (gi, row) Ir)|].
      apply (in_map fst) in Ic. exact Ic. }
  eexists. split; [apply get_scaled_matrix_cells; assumption|].
  destruct (map_cells_square
              (fun gi gj v =>
                 mul (mul (population_share tbl gi) (population_share tbl gj)) v)
              raw Sq) as [K Sq'].
  split; [exact K|]. split; [exact Sq'|].
  assert (P : Forall parses (keys (map_cells
              (fun gi gj v =>
                 mul (mul (population_share tbl gi) (population_share tbl gj)) v)
              raw))).
  { rewrite K. apply Forall_forall. intros g I.
    destruct (S g I) as (lo & hi & E & _). exists lo, hi. exact E. }
  split; [exact P|].
  intros new_groups PN. eexists.
  apply get_new_matrix_table; [exact P | apply square_complete; exact Sq' | exact PN].
Qed.

End ScalingMore.

Lemma get_scaled_matrix_returns_iff_witness :
  exists sm, get_scaled_matrix four_ages raw_two_groups = Ok sm.
Proof.
  destruct (get_scaled_matrix_returns_iff four_ages raw_two_groups) as [[_ R] _].
  - split; repeat constructor; simpl; intuition discriminate.
  - apply R. apply shares_by_check. reflexivity.
Defined.

Lemma scaled_matrix_is_square_witness :
  exists sm nm,
    get_scaled_matrix four_ages raw_two_groups = Ok sm /\
    keys sm = ["0-1"; "2-3"] /\
    get_new_matrix sm ["0-3"] = Ok nm.
Proof.
  destruct (scaled_matrix_is_square four_ages raw_two_groups)
    as (sm & E & K & _ & _ & N).
  - split; repeat constructor; simpl; intuition discriminate.
  - intros g I. apply has_share_check_ok. simpl in I.
    destruct I as [<-|[<-|[]]]; reflexivity.
  - destruct (N ["0-3"]) as [nm En]; [parses_all|].
    exists sm, nm. split; [exact E|]. split; [exact K | exact En].
Defined.

(** ** More on rebinning *)

Lemma fold_left_same {A S : Type} (l : list A) (s : S) :
  fold_left (fun s _ => s) l s = s.
Proof. induction l; simpl; auto. Qed.

Section RebinningMore.
Context {V : Type} `{Num V}.

(** A row of the scan over a group outside the new row group changes
    nothing, whatever the new column group. *)
Lemma scan_row_outside (sm : matrix V) (new_i new_j gi : string) (ret : V) :
  parses gi -> parses new_i -> range_in gi new_i = false ->
  for_each (keys sm)
    (fun group_j ret =>
       in_i <- _is_group_in_group gi new_i ;;
       if in_i then
         in_j <- _is_group_in_group group_j new_j ;;
         if in_j then
           r <- getitem String.eqb gi sm ;;
           x <- getitem String.eqb group_j r ;;
           Ok (add ret x)
         else Ok ret
       else Ok ret)
    ret
  = Ok ret.
Proof.
  intros Pg Pi R.
  rewrite (for_each_pure (keys sm) _ (fun s _ => s)).
  - rewrite fold_left_same. reflexivity.
  - intros gj s _. rewrite is_group_in_group_ok by assumption.
    rewrite R. reflexivity.
Qed.

Lemma is_group_in_group_unreadable (g new : string) :
  ~ parses new -> _is_group_in_group g new = Raise ValueError.
Proof.
  intros N. unfold _is_group_in_group.
  destruct (_age_group_to_tuple new) as [[lo hi]|e] eqn:E; simpl.
  - exfalso. apply N. exists lo, hi. exact E.
  - apply tuple_raises_value_error in E. subst e. reflexivity.
Qed.

(** X9.  The scan of [get_cell_for_new_matrix] reads the new column label
    only for the original groups inside the new row group: with none
    inside, the cell is [0] even for an unreadable column label; with one
    inside, an unreadable column label raises ValueError; and an
    unreadable row label raises ValueError as soon as the matrix has a
    group. *)
Theorem get_cell_reads_labels_lazily (sm : matrix V) (new_i new_j : string) :
  Forall parses (keys sm) ->
  (parses new_i ->
   (forall g, In g (keys sm) -> range_in g new_i = false) ->
   get_cell_for_new_matrix sm new_i new_j = Ok zero) /\
  (parses new_i -> ~ parses new_j ->
   (exists g, In g (keys sm) /\ range_in g new_i = true) ->
   get_cell_for_new_matrix sm new_i new_j = Raise ValueError) /\
  (~ parses new_i -> sm <> [] ->
   get_cell_for_new_matrix sm new_i new_j = Raise ValueError).
Proof.
  intros P. rewrite Forall_forall in P. unfold get_cell_for_new_matrix.
  split; [|split].
  - intros Pi Out.
    rewrite (for_each_pure (keys sm) _ (fun s _ => s)).
    + rewrite fold_left_same. reflexivity.
    + intros gi s I. apply scan_row_outside; auto.
  - intros Pi Nj (g & I & R).
    destruct (split_at_first (fun x => range_in x new_i) (keys sm) g I R)
      as (pre & y & post & E & Ry & Out).
    rewrite E at 1. apply for_each_first_raise.
    + intros z Iz. apply scan_row_outside; auto.
      apply P. rewrite E. apply in_or_app. left; exact Iz.
    + destruct (keys sm) as [|k ks] eqn:K; [destruct pre; discriminate E|].
      simpl. rewrite is_group_in_group_ok; auto.
      * rewrite Ry. simpl.
        rewrite is_group_in_group_unreadable by exact Nj. reflexivity.
      * apply P. rewrite E. apply in_or_app. right; left; reflexivity.
  - intros Ni NE. destruct sm as [|[k r] sm]; [congruence|].
    simpl. rewrite is_group_in_group_unreadable by exact Ni. reflexivity.
Qed.

Lemma first_occurrences_idem (l : list string) :
  first_occurrences (first_occurrences l) = first_occurrences l.
Proof.
  apply first_occurrences_nodup. apply nodup_add_occurrences. constructor.
Qed.

Lemma square_table (f : string -> string -> V) (labels : list string) :
  NoDup labels -> square (table f labels labels).
Proof.
  intros ND. split; [rewrite keys_table; exact ND|].
  rewrite keys_table. apply Forall_forall. intros r I.
  unfold table in I. apply in_map_iff in I as (gi & <- & _). simpl.
  unfold keys. rewrite map_map. simpl. rewrite map_id. reflexivity.
Qed.

(** X10.  [get_new_matrix] returns a square matrix whose labels are the
    new labels in the order of their first occurrence: repeating a new
    label changes nothing. *)
Theorem get_new_matrix_ignores_repeats (sm : matrix V) (new_groups : list string) :
  Forall parses (keys sm) -> complete sm -> Forall parses new_groups ->
  exists nm,
    get_new_matrix sm new_groups = Ok nm /\
    get_new_matrix sm (first_occurrences new_groups) = Ok nm /\
    keys nm = first_occurrences new_groups /\
    square nm.
Proof.
  intros P C PN.
  eexists. split; [apply get_new_matrix_table; assumption|]. split; [|split].
  - rewrite get_new_matrix_table; auto.
    + rewrite first_occurrences_idem. reflexivity.
    + rewrite Forall_forall in *. intros g I. apply PN.
      apply in_first_occurrences. exact I.
  - apply keys_table.
  - apply square_table. apply nodup_add_occurrences. constructor.
Qed.

End RebinningMore.

Lemma get_cell_reads_labels_lazily_witness :
  get_cell_for_new_matrix two_groups "50-60" "abc" = Ok 0%Q /\
  get_cell_for_new_matrix two_groups "0-10" "abc" = Raise ValueError /\
  get_cell_for_new_matrix two_groups "abc" "0-10" = Raise ValueError.
Proof.
  split; [|split].
  - destruct (get_cell_reads_labels_lazily two_groups "50-60" "abc") as (Z & _).
    + parses_all.
    + apply Z; [exists 50, 60; reflexivity|].
      intros g I. simpl in I. destruct I as [<-|[<-|[]]]; reflexivity.
  - destruct (get_cell_reads_labels_lazily two_groups "0-10" "abc") as (_ & R & _).
    + parses_all.
    + apply R; [exists 0, 10; reflexivity | |].
      * intros (lo & hi & E). discriminate E.
      * exists "0-10". split; [left; reflexivity | reflexivity].
  - destruct (get_cell_reads_labels_lazily two_groups "abc" "0-10") as (_ & _ & R).
    + parses_all.
    + apply R; [|discriminate].
      intros (lo & hi & E). discriminate E.
Defined.

Lemma get_new_matrix_ignores_repeats_witness :
  exists nm,
    get_new_matrix two_groups ["0-20"; "0-10"; "0-20"] = Ok nm /\
    get_new_matrix two_groups ["0-20"; "0-10"] = Ok nm /\
    keys nm = ["0-20"; "0-10"].
Proof.
  destruct (get_new_matrix_ignores_repeats two_groups ["0-20"; "0-10"; "0-20"])
    as (nm & E1 & E2 & K & _).
  - parses_all.
  - complete_by_cases.
  - parses_all.
  - exists nm. split; [exact E1|]. split; [exact E2 | exact K].
Defined.

Lemma NoDup_map_swap {A B : Type} (l : list (A * B)) :
  NoDup l -> NoDup (map (fun p => (snd p, fst p)) l).
Proof.
  induction 1 as [|[a b] l N ND IH]; simpl; constructor; [|exact IH].
  rewrite in_map_iff. intros ([a' b'] & E & I). simpl in E.
  injection E as -> ->. contradiction.
Qed.

Lemma list_prod_swap {A B : Type} (xs : list A) (ys : list B) :
  NoDup xs -> NoDup ys ->
  Permutation (list_prod xs ys) (map (fun p => (snd p, fst p)) (list_prod ys xs)).
Proof.
  intros Nx Ny. apply NoDup_Permutation.
  - apply NoDup_list_prod; assumption.
  - apply NoDup_map_swap, NoDup_list_prod; assumption.
  - intros [a b]. rewrite in_prod_iff, in_map_iff. split.
    + intros [Ia Ib]. exists (b, a). split; [reflexivity|].
      apply in_prod_iff. auto.
    + intros ([b' a'] & E & I). simpl in E. injection E as -> ->.
      apply in_prod_iff in I. tauto.
Qed.

Section RebinningAlgebra.
Context {V : Type} `{Num V}.
Hypothesis laws : exact_sums.

Lemma covered_as_product (sm : matrix V) (ni nj : string) :
  covered sm ni nj =
  list_prod (filter (fun g => range_in g ni) (keys sm))
            (filter (fun g => range_in g nj) (keys sm)).
Proof.
  unfold covered.
  apply (filter_list_prod (fun g => range_in g ni) (fun g => range_in g nj)).
Qed.

(** A symmetric matrix has symmetric rebinned cells. *)
Lemma rebinned_cell_sym (sm : matrix V) (ni nj : string) :
  NoDup (keys sm) ->
  (forall gi gj, In gi (keys sm) -> In gj (keys sm) ->
     value sm gi gj = value sm gj gi) ->
  rebinned_cell sm ni nj = rebinned_cell sm nj ni.
Proof.
  intros ND Sy. unfold rebinned_cell. rewrite !covered_as_product.
  rewrite (sum_list_perm laws _ _
             (Permutation_map _
                (list_prod_swap _ _ (NoDup_filter _ ND) (NoDup_filter _ ND)))).
  rewrite map_map. f_equal. apply map_ext_in. intros [gj gi] I. simpl.
  apply in_prod_iff in I as [Ij Ii].
  apply filter_In in Ij as [Ij _]. apply filter_In in Ii as [Ii _].
  apply Sy; assumption.
Qed.

(** The covered pairs of a coarse cell are those of the intermediate
    cells it covers. *)
Lemma covered_in_two_steps (sm : matrix V) (mid : list string) (fi fj : string) :
  NoDup (keys sm) -> NoDup mid -> tiles sm mid ->
  (forall g n, In g (keys sm) -> In n mid -> range_in g n = true ->
     range_in g fi = range_in n fi /\ range_in g fj = range_in n fj) ->
  Permutation
    (List.concat
       (map (fun p => covered sm (fst p) (snd p))
          (filter (fun p => range_in (fst p) fi && range_in (snd p) fj)
             (list_prod mid mid))))
    (covered sm fi fj).
Proof.
  intros ND NM T Co. apply NoDup_Permutation.
  - apply NoDup_concat_map.
    + apply NoDup_filter, NoDup_list_prod; exact NM.
    + intros p _. apply NoDup_filter, NoDup_list_prod; exact ND.
    + intros [ni nj] [ni' nj'] [gi gj] I I'. simpl.
      apply filter_In in I as [I _]. apply filter_In in I' as [I' _].
      apply in_prod_iff in I as [Ii Ij]. apply in_prod_iff in I' as [Ii' Ij'].
      rewrite !in_covered. intros (Ki & Kj & Ri & Rj) (_ & _ & Ri' & Rj').
      destruct (T gi Ki) as (n & _ & _ & Un).
      destruct (T gj Kj) as (n' & _ & _ & Un').
      f_equal.
      * rewrite (Un ni), (Un ni'); auto.
      * rewrite (Un' nj), (Un' nj'); auto.
  - apply NoDup_filter, NoDup_list_prod; exact ND.
  - intros [gi gj]. rewrite in_concat, in_covered. split.
    + intros (l & Il & I). apply in_map_iff in Il as ([ni nj] & <- & In').
      simpl in I. apply in_covered in I as (Ki & Kj & Ri & Rj).
      apply filter_In in In' as [In' F]. simpl in F.
      apply andb_true_iff in F as [Fi Fj].
      apply in_prod_iff in In' as [Ii Ij].
      destruct (Co gi ni Ki Ii Ri) as [Ei _].
      destruct (Co gj nj Kj Ij Rj) as [_ Ej].
      repeat split; auto; congruence.
    + intros (Ki & Kj & Ri & Rj).
      destruct (T gi Ki) as (ni & Ii & Rni & _).
      destruct (T gj Kj) as (nj & Ij & Rnj & _).
      destruct (Co gi ni Ki Ii Rni) as [Ei _].
      destruct (Co gj nj Kj Ij Rnj) as [_ Ej].
      exists (covered sm ni nj). split.
      * apply in_map_iff. exists (ni, nj). split; [reflexivity|].
        apply filter_In. split; [apply in_prod_iff; auto|].
        simpl. rewrite <- Ei, <- Ej, Ri, Rj. reflexivity.
      * apply in_covered. auto.
Qed.

Lemma value_table (f : string -> string -> V) (rows cols : list string)
  (gi gj : string) :
  In gi rows -> In gj cols -> value (table f rows cols) gi gj = f gi gj.
Proof.
  intros Ii Ij. unfold value. rewrite cell_table by assumption. reflexivity.
Qed.

(** A coarse cell of the rebinned intermediate matrix is the coarse cell
    of the original matrix. *)
Lemma rebinned_cell_in_two_steps (sm : matrix V) (mid : list string)
  (fi fj : string) :
  NoDup (keys sm) -> NoDup mid -> tiles sm mid ->
  (forall g n, In g (keys sm) -> In n mid -> range_in g n = true ->
     range_in g fi = range_in n fi /\ range_in g fj = range_in n fj) ->
  rebinned_cell (table (rebinned_cell sm) mid mid) fi fj = rebinned_cell sm fi fj.
Proof.
  intros ND NM T Co.
  unfold rebinned_cell at 1. unfold covered at 1. rewrite keys_table.
  rewrite (map_ext_in _ (fun p => sum_list
             (map (fun q => value sm (fst q) (snd q))
                  (covered sm (fst p) (snd p))))).
  2:{ intros [ni nj] I. apply filter_In in I as [I _].
      apply in_prod_iff in I as [Ii Ij]. simpl.
      rewrite value_table by assumption. reflexivity. }
  rewrite <- (map_map (fun p => map (fun q => value sm (fst q) (snd q))
                                    (covered sm (fst p) (snd p)))
                      sum_list).
  rewrite <- (sum_list_concat laws).
  rewrite <- (map_map (fun p => covered sm (fst p) (snd p))
                      (map (fun q => value sm (fst q) (snd q)))).
  rewrite <- concat_map.
  apply (sum_list_perm laws), Permutation_map.
  apply covered_in_two_steps; assumption.
Qed.

End RebinningAlgebra.

Section RebinningAlgebraClaims.
Context {V : Type} `{Num V}.

Lemma cell_table_none (f : string -> string -> V) (rows cols : list string)
  (gi gj : string) :
  ~ (In gi rows /\ In gj cols) -> cell (table f rows cols) gi gj = None.
Proof.
  intros N. destruct (cell (table f rows cols) gi gj) eqn:E; [|reflexivity].
  exfalso. apply N. apply (cell_table_in f). rewrite E. discriminate.
Qed.

(** X11.  In exact arithmetic, rebinning a symmetric scaled matrix gives a
    symmetric matrix. *)
Theorem rebin_keeps_symmetry (sm : matrix V) (new_groups : list string) :
  exact_sums ->
  NoDup (keys sm) -> Forall parses (keys sm) -> complete sm ->
  Forall parses new_groups ->
  (forall gi gj, In gi (keys sm) -> In gj (keys sm) ->
     value sm gi gj = value sm gj gi) ->
  exists nm,
    get_new_matrix sm new_groups = Ok nm /\
    forall ni nj, cell nm ni nj = cell nm nj ni.
Proof.
  intros laws ND P C PN Sy.
  eexists. split; [apply get_new_matrix_table; assumption|].
  intros ni nj.
  destruct (in_dec string_dec ni (first_occurrences new_groups)) as [Ii|Ni];
    destruct (in_dec string_dec nj (first_occurrences new_groups)) as [Ij|Nj].
  - rewrite !cell_table by assumption. f_equal.
    apply rebinned_cell_sym; assumption.
  - rewrite !cell_table_none by tauto. reflexivity.
  - rewrite !cell_table_none by tauto. reflexivity.
  - rewrite !cell_table_none by tauto. reflexivity.
Qed.

(** X12.  In exact arithmetic, rebinning in two steps is rebinning in one:
    when the intermediate groups tile the original ones, and an original
    group is inside a final group exactly when its intermediate group is,
    rebinning the rebinned matrix into the final groups gives the matrix
    that rebinning the scaled matrix into the final groups gives. *)
Theorem rebin_in_two_steps (sm : matrix V) (mid fin : list string) :
  exact_sums ->
  NoDup (keys sm) -> Forall parses (keys sm) -> complete sm ->
  Forall parses mid -> Forall parses fin ->
  tiles sm mid ->
  (forall g n f, In g (keys sm) -> In n mid -> In f fin ->
     range_in g n = true -> range_in g f = range_in n f) ->
  exists m1 m2,
    get_new_matrix sm mid = Ok m1 /\
    get_new_matrix m1 fin = Ok m2 /\
    get_new_matrix sm fin = Ok m2.
Proof.
  intros laws ND P C PM PF T Co.
  exists (table (rebinned_cell sm) (first_occurrences mid) (first_occurrences mid)).
  exists (table (rebinned_cell sm) (first_occurrences fin) (first_occurrences fin)).
  assert (NM : NoDup (first_occurrences mid))
    by (apply nodup_add_occurrences; constructor).
  split; [apply get_new_matrix_table; assumption|].
  split; [|apply get_new_matrix_table; assumption].
  rewrite get_new_matrix_table.
  - f_equal. unfold table at 1 3. apply map_ext_in. intros fi Ifi.
    f_equal. apply map_ext_in. intros fj Ifj. f_equal.
    apply (proj1 (in_first_occurrences _ _)) in Ifi, Ifj.
    apply (rebinned_cell_in_two_steps laws); auto.
    + apply tiles_first_occurrences. exact T.
    + intros g n Ig In' R. apply (proj1 (in_first_occurrences _ _)) in In'.
      split; apply Co; assumption.
  - rewrite keys_table. rewrite Forall_forall in *.
    intros n I. apply PM. apply in_first_occurrences. exact I.
  - apply square_complete, square_table. exact NM.
  - exact PF.
Qed.

End RebinningAlgebraClaims.

Lemma rebin_keeps_symmetry_witness :
  exists nm,
    get_new_matrix two_groups ["0-10"; "0-20"] = Ok nm /\
    cell nm "0-10" "0-20" = cell nm "0-20" "0-10".
Proof.
  destruct (rebin_keeps_symmetry two_groups ["0-10"; "0-20"]) as (nm & E & S).
  - exact Q_exact_sums.
  - repeat constructor; simpl; intuition discriminate.
  - parses_all.
  - complete_by_cases.
  - parses_all.
  - intros gi gj Ii Ij. simpl in Ii, Ij.
    destruct Ii as [<-|[<-|[]]]; destruct Ij as [<-|[<-|[]]]; reflexivity.
  - exists nm. split; [exact E | apply S].
Defined.

Lemma rebin_in_two_steps_witness :
  exists m1 m2,
    get_new_matrix two_groups ["0-10"; "11-20"] = Ok m1 /\
    get_new_matrix m1 ["0-20"] = Ok m2 /\
    get_new_matrix two_groups ["0-20"] = Ok m2.
Proof.
  apply (rebin_in_two_steps two_groups ["0-10"; "11-20"] ["0-20"]).
  - exact Q_exact_sums.
  - repeat constructor; simpl; intuition discriminate.
  - parses_all.
  - complete_by_cases.
  - parses_all.
  - parses_all.
  - intros g I. simpl in I. destruct I as [<-|[<-|[]]].
    + exists "0-10". split; [simpl; auto|]. split; [reflexivity|].
      intros n' [<-|[<-|[]]]; [reflexivity | discriminate].
    + exists "11-20". split; [simpl; auto|]. split; [reflexivity|].
      intros n' [<-|[<-|[]]]; [discriminate | reflexivity].
  - intros g n f Ig In' If. simpl in Ig, In', If.
    destruct Ig as [<-|[<-|[]]]; destruct In' as [<-|[<-|[]]];
      destruct If as [<-|[]]; reflexivity.
Defined.

(** ** More on formatting *)

Lemma map_m_raise_inv {A B : Type} (f : A -> result B) (xs : list A) (e : exn) :
  map_m f xs = Raise e -> exists x, In x xs /\ f x = Raise e.
Proof.
  induction xs as [|y xs IH]; simpl; [discriminate|].
  destruct (f y) as [b|e'] eqn:F; simpl.
  - destruct (map_m f xs) as [bs|e''] eqn:M; simpl; [discriminate|].
    intros [= <-]. destruct (IH eq_refl) as (x & I & R). exists x. auto.
  - intros [= <-]. exists y. auto.
Qed.

Lemma map_m_ok_inv {A B : Type} (f : A -> result B) (xs : list A) (ys : list B) :
  map_m f xs = Ok ys ->
  (forall x, In x xs -> exists y, f x = Ok y) /\
  (forall y, In y ys -> exists x, In x xs /\ f x = Ok y).
Proof.
  revert ys. induction xs as [|a xs IH]; simpl; intros ys M.
  - injection M as <-. split; [intros x [] | intros y []].
  - apply bind_ok_inv in M as (b & F & M).
    apply bind_ok_inv in M as (bs & M & E). injection E as <-.
    destruct (IH bs M) as [I1 I2]. split.
    + intros x [<-|I]; [eauto | auto].
    + intros y [<-|I]; [exists a; auto|].
      destruct (I2 y I) as (x & Ix & Fx). exists x. auto.
Qed.

Section FormattingMore.
Context {V : Type} `{Num V}.

(** The two loops of [format_lines] once the groups are sorted. *)
Lemma format_lines_of_groups (m : matrix V) (groups : list string) :
  sorted (fun x => '(lo, _) <- _age_group_to_tuple x ;; Ok lo) (keys m) = Ok groups ->
  (forall gi gj, In gi groups -> In gj groups -> cell m gi gj <> None) ->
  format_lines m = Ok (layout m groups).
Proof.
  intros S C. unfold format_lines. rewrite S. simpl.
  rewrite (fold_left_snoc (fun g => g) groups ["Age group"]), map_id.
  rewrite (for_each_pure groups _ (fun ret gi => ret ++ [data_line m groups gi])).
  - rewrite fold_left_snoc. reflexivity.
  - intros gi ret Ii.
    rewrite (for_each_pure groups _ (fun row gj => row ++ [str (value m gi gj)])).
    + rewrite fold_left_snoc. reflexivity.
    + intros gj row Ij. specialize (C gi gj Ii Ij).
      unfold value, cell, getitem in *.
      destruct (lookup String.eqb gi m) as [r|]; [|congruence]. simpl.
      destruct (lookup String.eqb gj r); [reflexivity | congruence].
Qed.

Lemma format_lines_raises (m : matrix V) (e : exn) :
  format_lines m = Raise e -> e = ValueError \/ e = KeyError.
Proof.
  unfold format_lines, sorted. intros R.
  destruct (map_m _ (keys m)) as [kxs|e'] eqn:M; simpl in R.
  - right. apply for_each_raise_inv in R as (gi & s & _ & R).
    destruct (for_each _ _ [gi]) as [row|e''] eqn:F; simpl in R; [discriminate|].
    injection R as <-.
    apply for_each_raise_inv in F as (gj & t & _ & F).
    unfold getitem in F.
    destruct (lookup String.eqb gi m) as [r|]; simpl in F; [|congruence].
    destruct (lookup String.eqb gj r); simpl in F; congruence.
  - left. injection R as <-.
    apply map_m_raise_inv in M as (x & _ & K).
    destruct (_age_group_to_tuple x) as [[lo hi]|e''] eqn:E; simpl in K;
      [discriminate|].
    injection K as <-. eapply tuple_raises_value_error; eauto.
Qed.

(** X13.  [format_matrix] raises ValueError when a row label is
    unreadable, before any cell is looked at, and KeyError when the labels
    are readable and a pair of row labels has no cell; it raises nothing
    else. *)
Theorem format_matrix_raises (m : matrix V) :
  ((exists g, In g (keys m) /\ ~ parses g) ->
   format_matrix m = Raise ValueError) /\
  (Forall parses (keys m) ->
   (exists gi gj, In gi (keys m) /\ In gj (keys m) /\ cell m gi gj = None) ->
   format_matrix m = Raise KeyError) /\
  (forall e, format_matrix m = Raise e -> e = ValueError \/ e = KeyError).
Proof.
  assert (FM : forall e, format_matrix m = Raise e -> format_lines m = Raise e).
  { unfold format_matrix. intros e R.
    destruct (format_lines m); simpl in R; [discriminate | congruence]. }
  split; [|split].
  - intros (g & I & N). unfold format_matrix, format_lines, sorted.
    destruct (map_m _ (keys m)) as [kxs|e] eqn:M; simpl.
    + exfalso. apply map_m_ok_inv in M as [M _].
      destruct (M g I) as [y Y].
      destruct (_age_group_to_tuple g) as [[lo hi]|e'] eqn:E; simpl in Y;
        [|discriminate].
      apply N. exists lo, hi. exact E.
    + apply map_m_raise_inv in M as (x & _ & K).
      destruct (_age_group_to_tuple x) as [[lo hi]|e''] eqn:E; simpl in K;
        [discriminate|].
      injection K as <-. apply tuple_raises_value_error in E. subst.
      reflexivity.
  - intros P (gi & gj & Ii & Ij & C). rewrite Forall_forall in P.
    destruct (sorted_spec
                (fun x => '(lo, _) <- _age_group_to_tuple x ;; Ok lo)
                lower_bound (keys m)) as (groups & S & Pm & _).
    { intros x I. apply sort_key_ok. auto. }
    unfold format_matrix.
    destruct (format_lines m) as [lines|e] eqn:F; simpl.
    + exfalso. unfold format_lines in F. rewrite S in F. simpl in F.
      destruct (for_each_ok_inv _ _ _ _ F gi) as (s1 & s2 & B).
      { eapply Permutation_in; [apply Permutation_sym; exact Pm | exact Ii]. }
      apply bind_ok_inv in B as (row & B & _).
      destruct (for_each_ok_inv _ _ _ _ B gj) as (t1 & t2 & B').
      { eapply Permutation_in; [apply Permutation_sym; exact Pm | exact Ij]. }
      unfold cell, getitem in *.
      destruct (lookup String.eqb gi m) as [r|]; simpl in B'; [|discriminate].
      destruct (lookup String.eqb gj r); simpl in B'; congruence.
    + destruct (format_lines_raises m e F) as [-> | ->]; [|reflexivity].
      exfalso. unfold format_lines in F. rewrite S in F. simpl in F.
      apply for_each_raise_inv in F as (x & s & _ & F).
      destruct (for_each _ _ [x]) as [row|e''] eqn:F'; simpl in F; [discriminate|].
      injection F as ->.
      apply for_each_raise_inv in F' as (y & t & _ & F').
      unfold getitem in F'.
      destruct (lookup String.eqb x m) as [r|]; simpl in F'; [|discriminate].
      destruct (lookup String.eqb y r); simpl in F'; discriminate.
  - intros e R. apply (format_lines_raises m). apply FM. exact R.
Qed.

(** X14.  The matrix that [get_new_matrix] returns is always accepted by
    [format_matrix]: for readable labels, the rebinned matrix is
    formatted as a header and one line per distinct new label. *)
Theorem format_of_rebinned (sm : matrix V) (new_groups : list string) :
  Forall parses (keys sm) -> complete sm -> Forall parses new_groups ->
  exists nm groups,
    get_new_matrix sm new_groups = Ok nm /\
    Permutation groups (first_occurrences new_groups) /\
    format_matrix nm = Ok (join newline (layout nm groups)) /\
    List.length (layout nm groups) = S (List.length (first_occurrences new_groups)).
Proof.
  intros P C PN. rewrite Forall_forall in PN.
  set (nm := table (rebinned_cell sm) (first_occurrences new_groups)
               (first_occurrences new_groups)).
  destruct (sorted_spec
              (fun x => '(lo, _) <- _age_group_to_tuple x ;; Ok lo)
              lower_bound (keys nm)) as (groups & S & Pm & _).
  { intros x I. apply sort_key_ok. apply PN.
    unfold nm in I. rewrite keys_table in I.
    apply in_first_occurrences. exact I. }
  assert (K : keys nm = first_occurrences new_groups) by apply keys_table.
  exists nm, groups. rewrite <- K.
  split; [apply get_new_matrix_table; auto; apply Forall_forall; exact PN|].
  split; [exact Pm|]. split.
  - unfold format_matrix. rewrite (format_lines_of_groups nm groups S).
    + reflexivity.
    + intros gi gj Ii Ij. unfold nm. rewrite cell_table; [discriminate| |].
      * rewrite <- K. eapply Permutation_in; eauto.
      * rewrite <- K. eapply Permutation_in; eauto.
  - unfold layout. simpl. rewrite length_map.
    rewrite (Permutation_length Pm). reflexivity.
Qed.

End FormattingMore.

Lemma format_matrix_raises_witness :
  format_matrix (V := Q) [("0-5", [("0-5", 1%Q)]); ("old", [])] = Raise ValueError /\
  format_matrix (V := Q) [("0-5", [("0-5", 1%Q)]); ("6-9", [])] = Raise KeyError.
Proof.
  split.
  - destruct (format_matrix_raises (V := Q) [("0-5", [("0-5", 1%Q)]); ("old", [])])
      as (R & _).
    apply R. exists "old". split; [simpl; auto|].
    intros (lo & hi & E). discriminate E.
  - destruct (format_matrix_raises (V := Q) [("0-5", [("0-5", 1%Q)]); ("6-9", [])])
      as (_ & R & _).
    apply R; [parses_all|].
    exists "0-5", "6-9". simpl. auto.
Defined.

Lemma format_of_rebinned_witness :
  exists nm groups,
    get_new_matrix two_groups ["11-20"; "0-10"; "11-20"] = Ok nm /\
    format_matrix nm = Ok (join newline (layout nm groups)) /\
    List.length (layout nm groups) = 3%nat.
Proof.
  destruct (format_of_rebinned two_groups ["11-20"; "0-10"; "11-20"])
    as (nm & groups & E & _ & F & L).
  - parses_all.
  - complete_by_cases.
  - parses_all.
  - exists nm, groups. split; [exact E|]. split; [exact F | exact L].
Defined.

(** ** Loading the mixing matrix *)

Lemma fold_left_pointwise {A S : Type} (f g : S -> A -> S) (l : list A) :
  (forall s x, f s x = g s x) ->
  forall s, fold_left f l s = fold_left g l s.
Proof.
  intros E. induction l as [|x l IH]; intros s; simpl; [reflexivity|].
  rewrite E. apply IH.
Qed.

Section LoadingMatrix.
Context {V : Type} `{Num V}.

(** The inner loop of [load_social_mixing_matrix] stores the cells of the
    row and skips its label. *)
Lemma load_row_loop (num : string -> V) (g : string) (row : csv_row) :
  (forall c text, In (c, text) row -> c <> "Age group" ->
     float text = Ok (num text)) ->
  forall ret : matrix V,
    for_each row
      (fun '(group_j, value) ret =>
         if String.eqb group_j "Age group" then Ok ret
         else
           let ret :=
             if contains String.eqb g ret then ret
             else setitem String.eqb g [] ret in
           x <- float value ;;
           r <- getitem String.eqb g ret ;;
           Ok (setitem String.eqb g (setitem String.eqb group_j x r) ret))
      ret
    = Ok (fold_left (fun ret c => store g (fst c) (num (snd c)) ret)
            (data_cells row) ret).
Proof.
  unfold data_cells.
  induction row as [|[c text] row IH]; intros F ret; simpl; [reflexivity|].
  destruct (String.eqb_spec c "Age group") as [E|N]; simpl.
  - apply IH. intros c' t' I. apply F. right; exact I.
  - rewrite (F c text) by (auto; left; reflexivity). simpl.
    pose proof (store_body g c (num text) ret) as B. cbv zeta in B.
    refine (eq_trans (f_equal (fun m => bind m _) B) _). simpl.
    apply IH. intros c' t' I. apply F. right; exact I.
Qed.

Lemma keys_data_cells (row : csv_row) :
  NoDup (keys row) ->
  NoDup (keys (data_cells row)) /\ ~ In "Age group" (keys (data_cells row)).
Proof.
  unfold data_cells. intros ND. split.
  - induction row as [|[c t] row IH]; simpl; [constructor|].
    inversion ND as [|? ? N ND']; subst.
    destruct (negb (String.eqb c "Age group")); simpl; [|auto].
    constructor; [|auto].
    intros I. apply N. unfold keys in *.
    apply in_map_iff in I as (p & E & I). apply filter_In in I as [I _].
    apply in_map_iff. exists p. auto.
  - intros I. unfold keys in I. apply in_map_iff in I as ([c t] & E & I).
    apply filter_In in I as [_ F]. simpl in *. subst c.
    rewrite String.eqb_refl in F. discriminate.
Qed.

(** [load_social_mixing_matrix] on rows of distinct labels. *)
Lemma load_social_mixing_matrix_cells (num : string -> V) (reader : list csv_row) :
  (forall row, In row reader ->
     NoDup (keys row) /\ lookup String.eqb "Age group" row <> None) ->
  NoDup (map row_label reader) ->
  (forall row c text, In row reader -> In (c, text) row -> c <> "Age group" ->
     float text = Ok (num text)) ->
  load_social_mixing_matrix reader =
  Ok (map_cells (fun _ _ x => x)
        (map (fun row =>
                (row_label row, map (fun c => (fst c, num (snd c))) (data_cells row)))
             reader)).
Proof.
  intros W ND F. unfold load_social_mixing_matrix.
  rewrite (for_each_pure reader _
    (fun ret row =>
       fold_left (fun ret c => store (row_label row) (fst c) (num (snd c)) ret)
         (data_cells row) ret)).
  - f_equal.
    set (raw := map (fun row =>
                  (row_label row,
                   map (fun c => (fst c, num (snd c))) (data_cells row)))
                reader).
    assert (WK : well_keyed raw).
    { split.
      - unfold raw, keys. rewrite map_map. simpl. exact ND.
      - apply Forall_forall. intros r I. unfold raw in I.
        apply in_map_iff in I as (row & <- & I). simpl.
        unfold keys. rewrite map_map. simpl.
        apply keys_data_cells. apply W. exact I. }
    pose proof (fill_rows (fun _ _ x => x) raw WK []
                  (fun k _ (I : In k (keys [])) => I)) as FR.
    simpl in FR. rewrite <- FR. unfold raw.
    rewrite fold_left_mapped. apply fold_left_pointwise. intros ret row. simpl.
    rewrite fold_left_mapped. reflexivity.
  - intros row ret I. destruct (W row I) as [_ L].
    unfold getitem, row_label.
    destruct (lookup String.eqb "Age group" row) as [g|]; [|congruence]. simpl.
    apply load_row_loop. intros c text. apply F. exact I.
Qed.

(** X15.  For rows without repeated columns, of pairwise distinct labels,
    and whose cells [float] reads, [load_social_mixing_matrix] returns the
    matrix that has, for every row and every column other than
    "Age group", the number read from the text of the cell, at the label
    of the row and the name of the column, and no other cell; "Age group"
    is never a column of it. *)
Theorem load_social_mixing_matrix_spec (num : string -> V) (reader : list csv_row) :
  (forall row, In row reader ->
     NoDup (keys row) /\ lookup String.eqb "Age group" row <> None) ->
  NoDup (map row_label reader) ->
  (forall row c text, In row reader -> In (c, text) row -> c <> "Age group" ->
     float text = Ok (num text)) ->
  exists m,
    load_social_mixing_matrix reader = Ok m /\
    (forall row g c text,
       In row reader -> lookup String.eqb "Age group" row = Some g ->
       In (c, text) row -> c <> "Age group" ->
       cell m g c = Some (num text)) /\
    (forall g c, cell m g c <> None ->
       c <> "Age group" /\
       exists row text,
         In row reader /\ lookup String.eqb "Age group" row = Some g /\
         In (c, text) row).
Proof.
  intros W ND F.
  eexists. split; [exact (load_social_mixing_matrix_cells num reader W ND F)|].
  set (raw := map (fun row =>
                (row_label row, map (fun c => (fst c, num (snd c))) (data_cells row)))
              reader).
  assert (WK : well_keyed raw).
  { split.
    - unfold raw, keys. rewrite map_map. simpl. exact ND.
    - apply Forall_forall. intros r I. unfold raw in I.
      apply in_map_iff in I as (row & <- & I). simpl.
      unfold keys. rewrite map_map. simpl.
      apply keys_data_cells. apply W. exact I. }
  assert (NK : NoDup (keys raw)) by apply WK.
  split.
  - intros row g c text I L Ic N.
    rewrite cell_map_cells by exact NK.
    rewrite (in_cell raw g c
               (map (fun c => (fst c, num (snd c))) (data_cells row))
               (num text) WK).
    + reflexivity.
    + unfold raw. apply in_map_iff. exists row. split; [|exact I].
      unfold row_label. rewrite L. reflexivity.
    + apply in_map_iff. exists (c, text). split; [reflexivity|].
      unfold data_cells. apply filter_In. split; [exact Ic|]. simpl.
      destruct (String.eqb_spec c "Age group"); [contradiction | reflexivity].
  - intros g c. rewrite cell_map_cells by exact NK.
    destruct (cell raw g c) as [x|] eqn:C; [|simpl; congruence].
    intros _. apply cell_some_in in C as (r & Ir & Ic).
    unfold raw in Ir. apply in_map_iff in Ir as (row & E & Ir).
    injection E as Eg <-.
    apply in_map_iff in Ic as ([c' text] & E & Ic). simpl in E.
    injection E as -> _.
    unfold data_cells in Ic. apply filter_In in Ic as [Ic Fc]. simpl in Fc.
    split.
    + intros ->. rewrite String.eqb_refl in Fc. discriminate.
    + exists row, text. split; [exact Ir|]. split; [|exact Ic].
      destruct (W row Ir) as [_ L]. unfold row_label in Eg.
      destruct (lookup String.eqb "Age group" row); congruence.
Qed.

(** X16.  When [load_social_mixing_matrix] returns, every row had the
    column "Age group" and every other cell was read by [float]: a row
    without a label or a cell that is not a number makes it raise. *)
Theorem load_social_mixing_matrix_returns (reader : list csv_row) (m : matrix V) :
  load_social_mixing_matrix reader = Ok m ->
  forall row, In row reader ->
    lookup String.eqb "Age group" row <> None /\
    forall c text, In (c, text) row -> c <> "Age group" ->
      exists x, float text = Ok x.
Proof.
  intros L row I. unfold load_social_mixing_matrix in L.
  destruct (for_each_ok_inv _ _ _ _ L row I) as (s1 & s2 & B).
  apply bind_ok_inv in B as (g & G & B).
  unfold getitem in G. split.
  - destruct (lookup String.eqb "Age group" row); congruence.
  - intros c text Ic N.
    destruct (for_each_ok_inv _ _ _ _ B (c, text) Ic) as (t1 & t2 & B').
    simpl in B'.
    destruct (String.eqb_spec c "Age group") as [E|_]; [contradiction|].
    apply bind_ok_inv in B' as (x & X & _). exists x. exact X.
Qed.

End LoadingMatrix.

Lemma load_social_mixing_matrix_spec_witness :
  exists m,
    load_social_mixing_matrix mixing_rows_two = Ok m /\
    cell m "0-1" "2-3" = Some 2%Q /\
    cell m "2-3" "2-3" = Some 1%Q.
Proof.
  destruct (load_social_mixing_matrix_spec
              (fun text => match Q_float text with Ok x => x | Raise _ => 0%Q end)
              mixing_rows_two) as (m & E & C & _).
  - intros row I. simpl in I. destruct I as [<-|[<-|[]]];
      (split; [repeat constructor; simpl; intuition discriminate | discriminate]).
  - repeat constructor; simpl; intuition discriminate.
  - intros row c text I Ic N. simpl in I.
    destruct I as [<-|[<-|[]]]; simpl in Ic;
      repeat (destruct Ic as [Ic|Ic]; [injection Ic as <- <-|]);
      try destruct Ic; try reflexivity; contradiction.
  - exists m. split; [exact E|]. split.
    + apply (C [("Age group", "0-1"); ("0-1", "1"); ("2-3", "2")] "0-1" "2-3" "2");
        simpl; auto. discriminate.
    + apply (C [("Age group", "2-3"); ("0-1", "2"); ("2-3", "1")] "2-3" "2-3" "1");
        simpl; auto. discriminate.
Defined.

Lemma load_social_mixing_matrix_returns_witness :
  lookup String.eqb "Age group" [("Age group", "0-1"); ("0-1", "1"); ("2-3", "2")]
  <> None.
Proof.
  destruct (@load_social_mixing_matrix_returns Q Q_Num mixing_rows_two
              [("0-1", [("0-1", 1%Q); ("2-3", 2%Q)]);
               ("2-3", [("0-1", 2%Q); ("2-3", 1%Q)])]
              eq_refl
              [("Age group", "0-1"); ("0-1", "1"); ("2-3", "2")])
    as [L _].
  - left; reflexivity.
  - exact L.
Defined.

(** ** More on loading the proportions *)

Section LoadingMore.
Context {V : Type} `{Num V}.

(** A row of another sex leaves the state of the first loop alone. *)
Lemma read_age_rows_filter (reader : list csv_row) :
  (forall row, In row reader -> lookup String.eqb "SEX" row <> None) ->
  read_age_rows reader = read_age_rows (filter both_sexes reader).
Proof.
  unfold read_age_rows. generalize (@nil (Z * V), @None V).
  induction reader as [|row reader IH]; intros st S; [reflexivity|].
  assert (S' : forall r, In r reader -> lookup String.eqb "SEX" r <> None)
    by (intros r I; apply S; right; exact I).
  pose proof (S row (or_introl eq_refl)) as L.
  simpl filter. destruct (both_sexes row) eqn:B.
  - simpl for_each. destruct st as [ret total].
    match goal with |- bind ?m _ = _ => destruct m end; simpl;
      [apply IH; exact S' | reflexivity].
  - simpl for_each. destruct st as [ret total].
    unfold both_sexes in B. unfold getitem at 1.
    destruct (lookup String.eqb "SEX" row) as [sex|]; [|congruence].
    simpl. rewrite B. simpl. apply IH. exact S'.
Qed.

(** X17.  The rows whose SEX is not "0" play no part: when every row has
    the column SEX, loading the table gives what loading its rows of both
    sexes gives, table or exception, whatever the other rows hold. *)
Theorem load_age_proportions_reads_both_sexes_only (reader : list csv_row) :
  (forall row, In row reader -> lookup String.eqb "SEX" row <> None) ->
  load_age_proportions reader = load_age_proportions (filter both_sexes reader).
Proof.
  intros S. unfold load_age_proportions.
  rewrite (read_age_rows_filter reader S). reflexivity.
Qed.

(** X18.  When the total of the last row of age 999 does not divide (a
    zero total), and an age of both sexes was read, the loader raises the
    exception of the division. *)
Theorem load_age_proportions_division_raises
  (reader : list csv_row) (kinds : list row_kind)
  (pre post : list row_kind) (t : V) (e : exn) :
  map_m read_row reader = Ok kinds ->
  kinds = pre ++ Sentinel t :: post ->
  (forall t', ~ In (Sentinel t') post) ->
  (exists a x, In (Count a x) kinds) ->
  (forall x, truediv x t = Raise e) ->
  load_age_proportions reader = Raise e.
Proof.
  intros M E NS (a & x & I) D.
  unfold load_age_proportions.
  rewrite (read_age_rows_fold reader kinds M). simpl.
  pose proof (after_rows_last_sentinel pre post t ([], None) NS) as T.
  pose proof (after_rows_has_count kinds a x ([], None) I) as L.
  rewrite <- E in T.
  destruct (fold_left after_row kinds ([], None)) as [ret total].
  simpl in T, L. subst total.
  destruct ret as [|[k v] ret]; [simpl in L; congruence|].
  unfold scale_by_total. simpl. unfold getitem. simpl.
  rewrite Z.eqb_refl. simpl. rewrite D. reflexivity.
Qed.

Lemma read_row_count (row : csv_row) (a : Z) (x : V) :
  read_row row = Ok (Count a x) -> a <> 999.
Proof.
  unfold read_row. intros R.
  apply bind_ok_inv in R as (sex & _ & R).
  destruct (String.eqb sex "0"); [|discriminate].
  apply bind_ok_inv in R as (s & _ & R).
  apply bind_ok_inv in R as (age & _ & R).
  apply bind_ok_inv in R as (p & _ & R).
  apply bind_ok_inv in R as (y & _ & R).
  destruct (Z.eqb_spec age 999); [discriminate|].
  injection R as <- _. assumption.
Qed.

Lemma read_age_rows_kinds (reader : list csv_row) (st : dict Z V * option V) :
  read_age_rows reader = Ok st ->
  exists kinds, map_m read_row reader = Ok kinds.
Proof.
  unfold read_age_rows. generalize (@nil (Z * V), @None V). revert st.
  induction reader as [|row reader IH]; intros st s0 R; simpl.
  - exists []. reflexivity.
  - simpl in R. apply bind_ok_inv in R as (s1 & B & R).
    rewrite (read_age_rows_step row s0) in B.
    apply bind_ok_inv in B as (k & K & _).
    destruct (IH st s1 R) as (ks & M).
    exists (k :: ks). rewrite K, M. reflexivity.
Qed.

Lemma scale_by_total_keys (total : option V) (ks : list Z) :
  forall d d' : dict Z V,
    for_each ks
      (fun k ret =>
         v <- getitem Z.eqb k ret ;;
         match total with
         | None => Raise UnboundLocalError
         | Some t =>
             q <- truediv v t ;;
             Ok (setitem Z.eqb k q ret)
         end)
      d = Ok d' ->
    keys d' = keys d.
Proof.
  induction ks as [|k ks IH]; intros d d' E; simpl in E.
  - injection E as <-. reflexivity.
  - apply bind_ok_inv in E as (d1 & B & E).
    apply bind_ok_inv in B as (v & G & B).
    destruct total as [t|]; [|discriminate].
    apply bind_ok_inv in B as (q & _ & B). injection B as <-.
    rewrite (IH _ _ E).
    apply (keys_setitem_old Z.eqb Z.eqb_eq).
    apply (contains_iff Z.eqb Z.eqb_eq). unfold contains.
    unfold getitem in G. destruct (lookup Z.eqb k d); [reflexivity | discriminate].
Qed.

(** X19.  A table that [load_age_proportions] returns has every age once
    and never the age 999. *)
Theorem load_age_proportions_keys (reader : list csv_row) (tbl : dict Z V) :
  load_age_proportions reader = Ok tbl ->
  NoDup (keys tbl) /\ lookup Z.eqb 999 tbl = None.
Proof.
  unfold load_age_proportions. intros L.
  apply bind_ok_inv in L as ([ret total] & R & L).
  destruct (read_age_rows_kinds reader _ R) as (kinds & M).
  rewrite (read_age_rows_fold reader kinds M) in R. injection R as R.
  unfold scale_by_total in L. apply scale_by_total_keys in L.
  pose proof (after_rows_keys kinds ([], None) ltac:(constructor)) as ND.
  rewrite R in ND. simpl in ND.
  split; [rewrite L; exact ND|].
  apply (lookup_none_iff Z.eqb Z.eqb_eq). rewrite L. intros I.
  apply (lookup_in_keys Z.eqb Z.eqb_eq) in I as [v Lv].
  destruct (after_rows_counts_only kinds 999 ([], None)) as [N|(x & Ix)].
  - rewrite R. simpl. rewrite Lv. discriminate.
  - simpl in N. congruence.
  - apply map_m_ok_inv in M as [_ M].
    destruct (M _ Ix) as (row & _ & Rr).
    apply read_row_count in Rr. congruence.
Qed.

End LoadingMore.

Lemma load_age_proportions_reads_both_sexes_only_witness :
  load_age_proportions (V := Q) census_four_ages =
  load_age_proportions (V := Q) (filter both_sexes census_four_ages).
Proof.
  apply load_age_proportions_reads_both_sexes_only.
  intros row I. simpl in I.
  repeat (destruct I as [<-|I]; [discriminate|]). destruct I.
Defined.

Lemma load_age_proportions_division_raises_witness :
  load_age_proportions (V := Q)
    [[("SEX", "0"); ("AGE", "999"); ("CENSUS2010POP", "0")];
     [("SEX", "0"); ("AGE", "7"); ("CENSUS2010POP", "10")]]
  = Raise ZeroDivisionError.
Proof.
  apply (@load_age_proportions_division_raises Q Q_Num _
           [Sentinel 0%Q; Count 7 10%Q] [] [Count 7 10%Q] 0%Q).
  - reflexivity.
  - reflexivity.
  - intros t' [I|[]]. discriminate I.
  - exists 7, 10%Q. simpl. auto.
  - intros x. reflexivity.
Defined.

Lemma load_age_proportions_keys_witness :
  NoDup [0; 1; 2; 3] /\
  lookup Z.eqb 999 [(0, (1 # 10)%Q); (1, (1 # 5)%Q); (2, (3 # 10)%Q); (3, (2 # 5)%Q)]
  = None.
Proof.
  apply (@load_age_proportions_keys Q Q_Num census_four_ages
           [(0, (1 # 10)%Q); (1, (1 # 5)%Q); (2, (3 # 10)%Q); (3, (2 # 5)%Q)]).
  reflexivity.
Defined.

(** ** The whole program *)

Section Main.
Context {V : Type} `{Num V}.

Lemma scaled_of_square (tbl : dict Z V) (raw : matrix V) :
  square raw ->
  (forall g, In g (keys raw) -> has_share tbl g) ->
  exists sm,
    get_scaled_matrix tbl raw = Ok sm /\
    Forall parses (keys sm) /\ complete sm.
Proof.
  intros Sq S.
  pose proof (square_well_keyed raw Sq) as W.
  assert (C : forall gi gj v, cell raw gi gj = Some v ->
                has_share tbl gi /\ has_share tbl gj).
  { intros gi gj v Cv. apply cell_some_in in Cv as (row & Ir & Ic).
    destruct Sq as [ND Sq]. rewrite Forall_forall in Sq.
    split; apply S.
    - apply (in_map fst) in Ir. exact Ir.
    - eapply Permutation_in; [apply (Sq (gi, row) Ir)|].
      apply (in_map fst) in Ic. exact Ic. }
  eexists. split; [apply get_scaled_matrix_cells; assumption|].
  destruct (map_cells_square
              (fun gi gj v =>
                 mul (mul (population_share tbl gi) (population_share tbl gj)) v)
              raw Sq) as [K Sq'].
  split.
  - rewrite K. apply Forall_forall. intros g I.
    destruct (S g I) as (lo & hi & E & _). exists lo, hi. exact E.
  - apply square_complete. exact Sq'.
Qed.

(** X20.  When the two tables load, the mixing matrix is square and the
    population table has the ages of all its groups, [main] prints four
    lines: the header of the groups "0-20", "21-64" and "65-100" in this
    order, and for each of them the line of its rebinned cells. *)
Theorem main_prints_three_groups
  (mixing_rows population_rows : list csv_row) (raw : matrix V) (tbl : dict Z V) :
  load_social_mixing_matrix mixing_rows = Ok raw ->
  load_age_proportions population_rows = Ok tbl ->
  square raw ->
  (forall g, In g (keys raw) -> has_share tbl g) ->
  exists sm,
    get_scaled_matrix tbl raw = Ok sm /\
    main mixing_rows population_rows =
    Ok (join newline
          (layout (table (rebinned_cell sm) main_groups main_groups) main_groups)) /\
    header_line main_groups = "Age group,0-20,21-64,65-100".
Proof.
  intros Lm Lp Sq S.
  destruct (scaled_of_square tbl raw Sq S) as (sm & E & P & C).
  exists sm. split; [exact E|]. split; [|reflexivity].
  assert (F : format_matrix (table (rebinned_cell sm) main_groups main_groups) =
              Ok (join newline
                    (layout (table (rebinned_cell sm) main_groups main_groups)
                       main_groups))).
  { unfold format_matrix.
    rewrite (format_lines_of_groups _ main_groups).
    - reflexivity.
    - rewrite keys_table. reflexivity.
    - intros gi gj Ii Ij. rewrite cell_table; [discriminate | exact Ii | exact Ij]. }
  unfold main, init. rewrite Lm, Lp.
  cbv beta iota delta [bind]. rewrite E.
  cbv beta iota delta [bind scaled_matrix].
  rewrite (get_new_matrix_table sm ["0-20"; "21-64"; "65-100"] P C)
    by parses_all.
  exact F.
Qed.

End Main.

Lemma main_prints_three_groups_witness :
  exists sm,
    main (V := Q) mixing_rows_two census_four_ages =
    Ok (join newline
          (layout (table (rebinned_cell sm) main_groups main_groups) main_groups)).
Proof.
  destruct (@main_prints_three_groups Q Q_Num mixing_rows_two census_four_ages
              raw_two_groups
              [(0, (1 # 10)%Q); (1, (1 # 5)%Q); (2, (3 # 10)%Q); (3, (2 # 5)%Q)])
    as (sm & _ & M & _).
  - reflexivity.
  - reflexivity.
  - split; repeat constructor; simpl; intuition discriminate.
  - intros g I. apply has_share_check_ok. simpl in I.
    destruct I as [<-|[<-|[]]]; reflexivity.
  - exists sm. exact M.
Defined.
